(** * Sequence intervals of the collaborative sequence (sequenceInterval.ts)

    A shallow embedding of [SequenceIntervalClass], of the endpoint factory
    ([createPositionReferenceFromSegoff], [createPositionReference],
    [createSequenceInterval]) and of [getSerializedProperties].

    The merge-tree (segments, local references, position resolution, the
    stickiness table) is a collaborator of this code; it is kept abstract as
    the record [MergeTree], so every theorem holds for every merge-tree.
    Local reference positions are JavaScript objects compared with [===]:
    each one carries the identity [lref_uid] it was given when created, and
    [===] on references is equality of these identities. *)

From Stdlib Require Import String Ascii List ZArith NArith Bool Lia.
Import ListNotations.
Open Scope Z_scope.

(** ** Enums of the merge-tree and of the interval code *)

Inductive Side := Before | After.

Inductive SlidingPreference := BACKWARD | FORWARD.

(** The sentinel endpoints ["start"] and ["end"]. *)
Inductive Endpoint := EStart | EEnd.

(** [number | "start" | "end"]. *)
Inductive Pos := PNum (n : Z) | PEndpoint (e : Endpoint).

(** [SequencePlace]: a bare position, or [{ pos, side }]. *)
Inductive SequencePlace :=
| SPPos (p : Pos)
| SPInterior (p : Pos) (s : Side).

Inductive IntervalStickiness := NONE | START | END | FULL.

Inductive IntervalType := Simple | Nest | SlideOnRemoveType | Transient.

Definition IntervalType_eqb (a b : IntervalType) : bool :=
  match a, b with
  | Simple, Simple | Nest, Nest | SlideOnRemoveType, SlideOnRemoveType
  | Transient, Transient => true
  | _, _ => false
  end.

Definition Side_eqb (a b : Side) : bool :=
  match a, b with
  | Before, Before | After, After => true
  | _, _ => false
  end.

(** Modelled from the spec: [ReferenceType] of the merge-tree (not under
    src), "a bitset over RangeBegin, RangeEnd, SlideOnRemove, StayOnRemove,
    Transient"; one bit per flag, with the merge-tree's values. *)
Module ReferenceType.
Definition Simple : Z := 0x0.
Definition Tile : Z := 0x1.
Definition RangeBegin : Z := 0x10.
Definition RangeEnd : Z := 0x20.
Definition SlideOnRemove : Z := 0x40.
Definition StayOnRemove : Z := 0x80.
Definition Transient : Z := 0x100.
End ReferenceType.

(** [refTypeIncludesFlag(refType, flag)]: [(refType & flag) !== 0]. *)
Definition refTypeIncludesFlag (refType flag : Z) : bool :=
  negb (Z.land refType flag =? 0).

(** ** JSON values and property sets *)

#[warnings="-register-all"]
Inductive json :=
| JUndefined
| JNull
| JBool (b : bool)
| JNum (z : Z)
| JStr (s : string)
| JArr (l : list json).

(** A [PropertySet] is a JavaScript object: its own keys in insertion order. *)
Definition PropertySet := list (string * json).

Fixpoint prop_lookup (k : string) (ps : PropertySet) : option json :=
  match ps with
  | [] => None
  | (k', v) :: ps' => if String.eqb k k' then Some v else prop_lookup k ps'
  end.

(** [obj[k] = v]: an existing key keeps its place, a new key goes last. *)
Fixpoint prop_set (k : string) (v : json) (ps : PropertySet) : PropertySet :=
  match ps with
  | [] => [(k, v)]
  | (k', v') :: ps' =>
      if String.eqb k k' then (k', v) :: ps' else (k', v') :: prop_set k v ps'
  end.

(** Object spread [{ ...props }] of [props: PropertySet | undefined]. *)
Definition spread (props : option PropertySet) : PropertySet :=
  match props with Some p => p | None => [] end.

Definition createMap : PropertySet := [].

(** Modelled from the spec: [addProperties] of the merge-tree (not under
    src), which "adds props to" a property map: every key of [newProps] is
    written into [oldProps]. *)
Definition addProperties (oldProps newProps : PropertySet) : PropertySet :=
  fold_left (fun acc kv => prop_set (fst kv) (snd kv) acc) newProps oldProps.

Definition reservedIntervalIdKey : string := "intervalId".
Definition reservedRangeLabelsKey : string := "referenceRangeLabels".
Definition legacyIdPrefix : string := "legacy".

(** ** Segments and local reference positions *)

Record Segment := mkSegment {
  seg_uid : nat;
  (** [segment.endpointType]: set on the special start/end segments. *)
  endpointType : option Endpoint;
}.

(** Where a reference sits: on a segment at an offset, or detached. *)
Inductive Anchor :=
| AtSegment (s : Segment) (offset : Z)
| Detached.

Record LocalReferencePosition := mkLRef {
  lref_uid : nat;
  refType : Z;
  slidingPreference : option SlidingPreference;
  canSlideToEndpoint : option bool;
  anchor : Anchor;
  lref_properties : option PropertySet;
}.

(** [a === b] on local references. *)
Definition lref_same (a b : LocalReferencePosition) : bool :=
  Nat.eqb (lref_uid a) (lref_uid b).

(** [ref.getSegment()]. *)
Definition getSegment (r : LocalReferencePosition) : option Segment :=
  match anchor r with AtSegment s _ => Some s | Detached => None end.

(** [segment?.endpointType]. *)
Definition segEndpointType (s : option Segment) : option Endpoint :=
  match s with Some s => endpointType s | None => None end.

(** [ref.addProperties(newProps)]. *)
Definition lref_addProperties (r : LocalReferencePosition) (newProps : PropertySet)
  : LocalReferencePosition :=
  {| lref_uid := lref_uid r; refType := refType r;
     slidingPreference := slidingPreference r;
     canSlideToEndpoint := canSlideToEndpoint r; anchor := anchor r;
     lref_properties :=
       Some (addProperties (match lref_properties r with
                            | Some p => p | None => createMap end) newProps) |}.

(** The result of [getContainingSegment] / [getSlideToSegoff], and the
    [segoff] argument of [createPositionReferenceFromSegoff]:
    [{ segment, offset } | undefined | "start" | "end"]. *)
Inductive Segoff :=
| SegoffAt (s : Segment) (offset : Z)
| SegoffNone
| SegoffEndpoint (e : Endpoint).

(** [ISequencedDocumentMessage], the fields this code reads. *)
Record SequencedMessage := mkMessage {
  referenceSequenceNumber : Z;
  clientId : string;
  sequenceNumber : Z;
  minimumSequenceNumber : Z;
}.

(** ** The merge-tree collaborator

    The operations of [Client] and the free functions of the merge-tree and
    of intervalUtils that this code calls. [uuid n] is the [n]-th value the
    [uuid()] generator hands out. *)
Record MergeTree := mkMergeTree {
  getContainingSegment :
    Z -> option (Z * string) -> option Z -> Segoff;
  getSlideToSegoff :
    Segoff -> option SlidingPreference -> bool -> Segoff;
  localReferencePositionToPosition : LocalReferencePosition -> Z;
  getCurrentSeq : Z;
  compareReferencePositions :
    LocalReferencePosition -> LocalReferencePosition -> Z;
  minReferencePosition :
    LocalReferencePosition -> LocalReferencePosition -> LocalReferencePosition;
  maxReferencePosition :
    LocalReferencePosition -> LocalReferencePosition -> LocalReferencePosition;
  computeStickinessFromSide :
    option Pos -> Side -> option Pos -> Side -> IntervalStickiness;
  startReferenceSlidingPreference : IntervalStickiness -> SlidingPreference;
  endReferenceSlidingPreference : IntervalStickiness -> SlidingPreference;
  (** The special segment a ["start"]/["end"] reference is placed on. *)
  endpointSegment : Endpoint -> Segment;
  uuid : nat -> string;
}.

(** ** Effects: fresh objects, [uuid()] and exceptions *)

Record World := mkWorld {
  next_lref : nat;
  next_uuid : nat;
}.

Inductive Exn :=
| UsageError (msg : string)
| AssertionError (code : Z).

Inductive Result (A : Type) :=
| Ok (a : A) (w : World)
| Throw (e : Exn).
Arguments Ok {A}.
Arguments Throw {A}.

Definition M (A : Type) := World -> Result A.

Definition ret {A} (a : A) : M A := fun w => Ok a w.
Definition bind {A B} (m : M A) (k : A -> M B) : M B :=
  fun w => match m w with Ok a w' => k a w' | Throw e => Throw e end.
Definition throw {A} (e : Exn) : M A := fun _ => Throw e.

Notation "x <- m ;; k" := (bind m (fun x => k))
  (at level 61, m at next level, right associativity).

(** [assert(cond, code)] of core-utils. *)
Definition assert (cond : bool) (code : Z) : M unit :=
  if cond then ret tt else throw (AssertionError code).

(** JavaScript truthiness of the optional arguments. *)
Definition truthy_bool (b : option bool) : bool :=
  match b with Some true => true | _ => false end.
Definition truthy_num (n : option Z) : bool :=
  match n with Some z => negb (z =? 0) | None => false end.
Definition is_defined {A} (x : option A) : bool :=
  match x with Some _ => true | None => false end.

(** ** Helpers of sequenceInterval.ts *)

Definition compareSides (sideA sideB : Side) : Z :=
  if Side_eqb sideA sideB then 0
  else match sideA with Before => 1 | After => -1 end.

Definition minSide (sideA sideB : Side) : Side :=
  match sideA, sideB with After, After => After | _, _ => Before end.

Definition maxSide (sideA sideB : Side) : Side :=
  match sideA, sideB with Before, Before => Before | _, _ => After end.

(** JavaScript [<] / [>] on strings: lexicographic on the code units. *)
Fixpoint js_string_compare (a b : string) : comparison :=
  match a, b with
  | EmptyString, EmptyString => Eq
  | EmptyString, String _ _ => Lt
  | String _ _, EmptyString => Gt
  | String c a', String d b' =>
      match Nat.compare (nat_of_ascii c) (nat_of_ascii d) with
      | Eq => js_string_compare a' b'
      | r => r
      end
  end.

Definition js_string_gt (a b : string) : bool :=
  match js_string_compare a b with Gt => true | _ => false end.
Definition js_string_lt (a b : string) : bool :=
  match js_string_compare a b with Lt => true | _ => false end.

(** String truthiness: every string but [""] is truthy. *)
Definition truthy_string (s : string) : bool :=
  match s with EmptyString => false | _ => true end.

(** Decimal rendering of a number, as in a template literal. *)
Fixpoint digits_of_N (fuel : nat) (n : N) (acc : string) : string :=
  match fuel with
  | O => acc
  | S fuel' =>
      let acc' := String (ascii_of_N (48 + N.modulo n 10)) acc in
      let q := N.div n 10 in
      if (q =? 0)%N then acc' else digits_of_N fuel' q acc'
  end.

Definition string_of_N (n : N) : string := digits_of_N (S (N.size_nat n)) n "".

Definition string_of_Z (z : Z) : string :=
  if z <? 0 then "-" ++ string_of_N (Z.to_N (- z)) else string_of_N (Z.to_N z).

(** [`${pos}`] for [pos: number | "start" | "end" | undefined]. *)
Definition template_of_pos (p : option Pos) : string :=
  match p with
  | None => "undefined"
  | Some (PNum n) => string_of_Z n
  | Some (PEndpoint EStart) => "start"
  | Some (PEndpoint EEnd) => "end"
  end.

(** [SerializedIntervalDelta] (and [ISerializedInterval], its instance with
    all four endpoint fields present). *)
Record SerializedIntervalDelta := mkSerialized {
  ser_end : option Pos;
  ser_intervalType : IntervalType;
  ser_sequenceNumber : Z;
  ser_start : option Pos;
  ser_stickiness : IntervalStickiness;
  ser_startSide : option Side;
  ser_endSide : option Side;
  ser_properties : option PropertySet;
}.

(** The result of [getSerializedProperties]; [labels] is whatever the
    destructuring produced, so it is kept as a JSON value. *)
Record SerializedProperties := mkSerializedProperties {
  sp_id : json;
  sp_labels : json;
  sp_properties : PropertySet;
}.

(** [maybeId ?? x]. *)
Definition nullish (v : option json) (dflt : json) : json :=
  match v with Some JUndefined | Some JNull | None => dflt | Some v => v end.

Definition getSerializedProperties (serializedInterval : SerializedIntervalDelta)
  : SerializedProperties :=
  let ps := match ser_properties serializedInterval with
            | Some p => p | None => [] end in
  let maybeId := prop_lookup reservedIntervalIdKey ps in
  let labels := match prop_lookup reservedRangeLabelsKey ps with
                | Some v => v | None => JUndefined end in
  let properties :=
    filter (fun kv => negb (String.eqb (fst kv) reservedIntervalIdKey)
                      && negb (String.eqb (fst kv) reservedRangeLabelsKey)) ps in
  let id :=
    nullish maybeId
      (JStr (legacyIdPrefix ++ template_of_pos (ser_start serializedInterval) ++ "-"
             ++ template_of_pos (ser_end serializedInterval))) in
  {| sp_id := id; sp_labels := labels; sp_properties := properties |}.

Section Intervals.

Variable mt : MergeTree.

(** [client.createLocalReferencePosition(segment | "start" | "end", offset,
    refType, undefined, slidingPreference, canSlideToEndpoint)].
    Modelled from the spec: "Create an attached PR at (segment, offset) with
    the given flags"; the object is new, so it gets a fresh identity. *)
Definition createLocalReferencePosition (s : Segment) (offset : Z) (refType : Z)
  (slidingPreference : option SlidingPreference) (canSlideToEndpoint : option bool)
  : M LocalReferencePosition :=
  fun w =>
    Ok {| lref_uid := next_lref w; refType := refType;
          slidingPreference := slidingPreference;
          canSlideToEndpoint := canSlideToEndpoint;
          anchor := AtSegment s offset; lref_properties := None |}
       {| next_lref := S (next_lref w); next_uuid := next_uuid w |}.

(** [createDetachedLocalReferencePosition(slidingPreference, refType)].
    Modelled from the spec: "a detached PR carrying (slidingPreference,
    refType) only". *)
Definition createDetachedLocalReferencePosition
  (slidingPreference : option SlidingPreference) (refType : Z)
  : M LocalReferencePosition :=
  fun w =>
    Ok {| lref_uid := next_lref w; refType := refType;
          slidingPreference := slidingPreference;
          canSlideToEndpoint := None;
          anchor := Detached; lref_properties := None |}
       {| next_lref := S (next_lref w); next_uuid := next_uuid w |}.

(** The condition under which [createPositionReferenceFromSegoff] throws
    when it has no segment. *)
Definition needsSegmentError (refType : Z) (op : option SequencedMessage)
  (localSeq : option Z) (fromSnapshot rollback : option bool) : bool :=
  negb (is_defined op) && negb (truthy_num localSeq) && negb (truthy_bool fromSnapshot)
  && negb (refTypeIncludesFlag refType ReferenceType.Transient)
  && negb (truthy_bool rollback).

Definition createPositionReferenceFromSegoff (segoff : Segoff) (refType : Z)
  (op : option SequencedMessage) (localSeq : option Z) (fromSnapshot : option bool)
  (slidingPreference : option SlidingPreference) (canSlideToEndpoint : option bool)
  (rollback : option bool) : M LocalReferencePosition :=
  match segoff with
  | SegoffEndpoint e =>
      createLocalReferencePosition (endpointSegment mt e) 0 refType
        slidingPreference canSlideToEndpoint
  | SegoffAt s offset =>
      createLocalReferencePosition s offset refType slidingPreference canSlideToEndpoint
  | SegoffNone =>
      if needsSegmentError refType op localSeq fromSnapshot rollback
      then throw (UsageError "Non-transient references need segment")
      else createDetachedLocalReferencePosition slidingPreference refType
  end.

Definition createPositionReference (pos : Pos) (refType : Z)
  (op : option SequencedMessage) (fromSnapshot : option bool) (localSeq : option Z)
  (slidingPreference : option SlidingPreference) (exclusive : bool)
  (useNewSlidingBehavior : bool) (rollback : option bool)
  : M LocalReferencePosition :=
  segoff <-
    match op with
    | Some o =>
        _ <- assert (negb (Z.land refType ReferenceType.SlideOnRemove =? 0)) 0x2f5 ;;
        ret (match pos with
             | PEndpoint e => SegoffEndpoint e
             | PNum n =>
                 getSlideToSegoff mt
                   (getContainingSegment mt n
                      (Some (referenceSequenceNumber o, clientId o)) None)
                   slidingPreference useNewSlidingBehavior
             end)
    | None =>
        _ <- assert ((Z.land refType ReferenceType.SlideOnRemove =? 0)
                     || truthy_bool fromSnapshot) 0x2f6 ;;
        ret (match pos with
             | PEndpoint e => SegoffEndpoint e
             | PNum n => getContainingSegment mt n None localSeq
             end)
    end ;;
  createPositionReferenceFromSegoff segoff refType op localSeq fromSnapshot
    slidingPreference (Some exclusive) rollback.

(** Modelled from the spec: [endpointPosAndSide] of the merge-tree (not
    under src), which normalises the two places into
    [{ startPos, startSide, endPos, endSide }]; an absent place gives an
    absent position and side, a bare position has side [Before]. *)
Definition placePosAndSide (p : option SequencePlace) : option Pos * option Side :=
  match p with
  | None => (None, None)
  | Some (SPPos q) => (Some q, Some Before)
  | Some (SPInterior q s) => (Some q, Some s)
  end.

Definition endpointPosAndSide (start end' : option SequencePlace)
  : option Pos * option Side * option Pos * option Side :=
  let '(startPos, startSide) := placePosAndSide start in
  let '(endPos, endSide) := placePosAndSide end' in
  (startPos, startSide, endPos, endSide).

(** ** [SequenceIntervalClass] *)

Record SequenceInterval := mkInterval {
  id : string;
  label : string;
  start : LocalReferencePosition;
  end' : LocalReferencePosition;
  intervalType : IntervalType;
  (** [#props.properties] *)
  properties : PropertySet;
  startSide : Side;
  endSide : Side;
}.

(** [new SequenceIntervalClass(client, id, label, start, end, intervalType,
    props, startSide, endSide)]: [if (props) addProperties(createMap(), props)]. *)
Definition newSequenceInterval (id label : string)
  (start end' : LocalReferencePosition) (intervalType : IntervalType)
  (props : option PropertySet) (startSide endSide : Side) : SequenceInterval :=
  {| id := id; label := label; start := start; end' := end';
     intervalType := intervalType;
     properties :=
       match props with Some p => addProperties createMap p | None => createMap end;
     startSide := startSide; endSide := endSide |}.

Definition getIntervalId (i : SequenceInterval) : string := id i.

Definition endpointPos (e : option Endpoint) : option Pos :=
  match e with Some e => Some (PEndpoint e) | None => None end.

Definition stickiness (i : SequenceInterval) : IntervalStickiness :=
  computeStickinessFromSide mt
    (endpointPos (segEndpointType (getSegment (start i)))) (startSide i)
    (endpointPos (segEndpointType (getSegment (end' i)))) (endSide i).

(** [serializeDelta({ props, includeEndpoints })]. *)
Definition serializeDelta (i : SequenceInterval) (props : option PropertySet)
  (includeEndpoints : bool) : SerializedIntervalDelta :=
  let startSegment := getSegment (start i) in
  let endSegment := getSegment (end' i) in
  let startPosition :=
    if includeEndpoints then
      match segEndpointType startSegment with
      | Some e => Some (PEndpoint e)
      | None => Some (PNum (localReferencePositionToPosition mt (start i)))
      end
    else None in
  let endPosition :=
    if includeEndpoints then
      match segEndpointType endSegment with
      | Some e => Some (PEndpoint e)
      | None => Some (PNum (localReferencePositionToPosition mt (end' i)))
      end
    else None in
  {| ser_end := endPosition;
     ser_intervalType := intervalType i;
     ser_sequenceNumber := getCurrentSeq mt;
     ser_start := startPosition;
     ser_stickiness := stickiness i;
     ser_startSide := if includeEndpoints then Some (startSide i) else None;
     ser_endSide := if includeEndpoints then Some (endSide i) else None;
     ser_properties :=
       Some (prop_set reservedRangeLabelsKey (JArr [JStr (label i)])
               (prop_set reservedIntervalIdKey (JStr (id i)) (spread props))) |}.

Definition serialize (i : SequenceInterval) : SerializedIntervalDelta :=
  serializeDelta i (Some (properties i)) true.

Definition clone (i : SequenceInterval) : SequenceInterval :=
  newSequenceInterval (id i) (label i) (start i) (end' i) (intervalType i)
    (Some (properties i)) (startSide i) (endSide i).

Definition compareStart (a b : SequenceInterval) : Z :=
  let dist := compareReferencePositions mt (start a) (start b) in
  if dist =? 0 then compareSides (startSide a) (startSide b) else dist.

Definition compareEnd (a b : SequenceInterval) : Z :=
  let dist := compareReferencePositions mt (end' a) (end' b) in
  if dist =? 0 then compareSides (endSide b) (endSide a) else dist.

Definition compare (a b : SequenceInterval) : Z :=
  let startResult := compareStart a b in
  if startResult =? 0 then
    let endResult := compareEnd a b in
    if endResult =? 0 then
      let thisId := getIntervalId a in
      if truthy_string thisId then
        let bId := getIntervalId b in
        if truthy_string bId then
          if js_string_gt thisId bId then 1
          else if js_string_lt thisId bId then -1 else 0
        else 0
      else 0
    else endResult
  else startResult.

Definition overlaps (a b : SequenceInterval) : bool :=
  (compareReferencePositions mt (start a) (end' b) <=? 0)
  && (compareReferencePositions mt (end' a) (start b) >=? 0).

Definition overlapsPos (i : SequenceInterval) (bstart bend : Z) : bool :=
  let startPos := localReferencePositionToPosition mt (start i) in
  let endPos := localReferencePositionToPosition mt (end' i) in
  (endPos >? bstart) && (startPos <? bend).

(** [uuid()]: the next value of the generator. *)
Definition gen_uuid : M string :=
  fun w => Ok (uuid mt (next_uuid w))
              {| next_lref := next_lref w; next_uuid := S (next_uuid w) |}.

Definition union (a b : SequenceInterval) : M SequenceInterval :=
  let newStart := minReferencePosition mt (start a) (start b) in
  let newEnd := maxReferencePosition mt (end' a) (end' b) in
  let startSide' :=
    if lref_same (start a) (start b) then minSide (startSide a) (startSide b)
    else if lref_same (start a) newStart then startSide a else startSide b in
  let endSide' :=
    if lref_same (end' a) (end' b) then maxSide (endSide a) (endSide b)
    else if lref_same (end' a) newEnd then endSide a else endSide b in
  newId <- gen_uuid ;;
  ret (newSequenceInterval newId (label a) newStart newEnd (intervalType a) None
         startSide' endSide').

(** Modelled from the spec: [copyPropertiesAndManager] of the merge-tree
    (not under src), "copying both the property map and its change manager
    to the new instance". *)
Definition copyPropertiesAndManager (from to : SequenceInterval) : SequenceInterval :=
  {| id := id to; label := label to; start := start to; end' := end' to;
     intervalType := intervalType to; properties := properties from;
     startSide := startSide to; endSide := endSide to |}.

Definition opt_or {A} (x y : option A) : option A :=
  match x with Some _ => x | None => y end.

Definition opt_default {A} (x : option A) (d : A) : A :=
  match x with Some a => a | None => d end.

(** [getRefType] inside [modify]. *)
Definition modifyRefType (op : option SequencedMessage) (baseType : Z) : Z :=
  match op with
  | None =>
      Z.lor (Z.land baseType (Z.lnot ReferenceType.SlideOnRemove))
        ReferenceType.StayOnRemove
  | Some _ => baseType
  end.

Definition SlidingPreference_eqb (a b : SlidingPreference) : bool :=
  match a, b with
  | BACKWARD, BACKWARD | FORWARD, FORWARD => true
  | _, _ => false
  end.

Definition modify (i : SequenceInterval) (label' : string)
  (start_ end_ : option SequencePlace) (op : option SequencedMessage)
  (localSeq : option Z) (useNewSlidingBehavior : bool) : M SequenceInterval :=
  let '(startPos, startSide', endPos, endSide') := endpointPosAndSide start_ end_ in
  let startSegment := getSegment (start i) in
  let endSegment := getSegment (end' i) in
  let stickiness :=
    computeStickinessFromSide mt
      (opt_or startPos (endpointPos (segEndpointType startSegment)))
      (opt_default startSide' (startSide i))
      (opt_or endPos (endpointPos (segEndpointType endSegment)))
      (opt_default endSide' (endSide i)) in
  let spref := startReferenceSlidingPreference mt stickiness in
  let epref := endReferenceSlidingPreference mt stickiness in
  startRef <-
    match startPos with
    | Some p =>
        r <- createPositionReference p (modifyRefType op (refType (start i))) op None
               localSeq (Some spref) (SlidingPreference_eqb spref BACKWARD)
               useNewSlidingBehavior None ;;
        ret (match lref_properties (start i) with
             | Some ps => lref_addProperties r ps
             | None => r
             end)
    | None => ret (start i)
    end ;;
  endRef <-
    match endPos with
    | Some p =>
        r <- createPositionReference p (modifyRefType op (refType (end' i))) op None
               localSeq (Some epref) (SlidingPreference_eqb epref FORWARD)
               useNewSlidingBehavior None ;;
        ret (match lref_properties (end' i) with
             | Some ps => lref_addProperties r ps
             | None => r
             end)
    | None => ret (end' i)
    end ;;
  let newInterval :=
    newSequenceInterval (id i) (label i) startRef endRef (intervalType i) None
      (opt_default startSide' (startSide i)) (opt_default endSide' (endSide i)) in
  ret (copyPropertiesAndManager i newInterval).

(** [beginRefType] and [endRefType] of [createSequenceInterval]. *)
Definition rangeRefTypes (intervalType : IntervalType) (op : option SequencedMessage)
  (fromSnapshot : option bool) : Z * Z :=
  if IntervalType_eqb intervalType Transient then
    (ReferenceType.Transient, ReferenceType.Transient)
  else if is_defined op || truthy_bool fromSnapshot then
    (Z.lor ReferenceType.RangeBegin ReferenceType.SlideOnRemove,
     Z.lor ReferenceType.RangeEnd ReferenceType.SlideOnRemove)
  else
    (Z.lor ReferenceType.RangeBegin ReferenceType.StayOnRemove,
     Z.lor ReferenceType.RangeEnd ReferenceType.StayOnRemove).

(** [{ ...props, [reservedIntervalIdKey]: undefined,
       [reservedRangeLabelsKey]: undefined }]. *)
Definition clearReservedKeys (props : PropertySet) : PropertySet :=
  prop_set reservedRangeLabelsKey JUndefined
    (prop_set reservedIntervalIdKey JUndefined props).

Definition createSequenceInterval (label id : string)
  (start end' : option SequencePlace) (intervalType : IntervalType)
  (op : option SequencedMessage) (fromSnapshot : option bool)
  (useNewSlidingBehavior : bool) (props : option PropertySet)
  (rollback : option bool) : M SequenceInterval :=
  let '(startPos, startSide, endPos, endSide) :=
    endpointPosAndSide (Some (opt_default start (SPPos (PEndpoint EStart))))
                       (Some (opt_default end' (SPPos (PEndpoint EEnd)))) in
  match startPos, endPos, startSide, endSide with
  | Some startPos, Some endPos, Some startSide, Some endSide =>
      let stickiness :=
        computeStickinessFromSide mt (Some startPos) startSide (Some endPos) endSide in
      let '(beginRefType, endRefType) := rangeRefTypes intervalType op fromSnapshot in
      let spref := startReferenceSlidingPreference mt stickiness in
      let epref := endReferenceSlidingPreference mt stickiness in
      startLref <- createPositionReference startPos beginRefType op fromSnapshot None
                     (Some spref) (SlidingPreference_eqb spref BACKWARD)
                     useNewSlidingBehavior rollback ;;
      endLref <- createPositionReference endPos endRefType op fromSnapshot None
                   (Some epref) (SlidingPreference_eqb epref FORWARD)
                   useNewSlidingBehavior rollback ;;
      let rangeProp := [(reservedRangeLabelsKey, JArr [JStr label])] in
      ret (newSequenceInterval id label
             (lref_addProperties startLref rangeProp)
             (lref_addProperties endLref rangeProp)
             intervalType (option_map clearReservedKeys props) startSide endSide)
  | _, _, _, _ => throw (AssertionError 0x794)
  end.

Definition createTransientInterval (start end' : option SequencePlace)
  : M SequenceInterval :=
  newId <- gen_uuid ;;
  createSequenceInterval "transient" newId start end' Transient None None false
    None None.

End Intervals.

(** ** A concrete merge-tree

    One segment per character position [n] (identity [n], offset 0); the
    special start and end segments sit before and after all of them.
    References compare by the position of their anchor. *)
Module Concrete.

Definition startSegment : Segment := mkSegment 4000 (Some EStart).
Definition endSegment : Segment := mkSegment 4001 (Some EEnd).

Definition anchorKey (r : LocalReferencePosition) : Z :=
  match anchor r with
  | AtSegment s off =>
      match endpointType s with
      | Some EStart => -1
      | Some EEnd => 1000000
      | None => Z.of_nat (seg_uid s) + off
      end
  | Detached => -2
  end.

Definition cmp (a b : LocalReferencePosition) : Z := anchorKey a - anchorKey b.

Definition mt0 : MergeTree := {|
  getContainingSegment := fun n _ _ =>
    if n <? 0 then SegoffNone else SegoffAt (mkSegment (Z.to_nat n) None) 0;
  getSlideToSegoff := fun s _ _ => s;
  localReferencePositionToPosition := anchorKey;
  getCurrentSeq := 0;
  compareReferencePositions := cmp;
  minReferencePosition := fun a b => if cmp a b <? 0 then a else b;
  maxReferencePosition := fun a b => if cmp a b >? 0 then a else b;
  computeStickinessFromSide := fun sp ss ep es =>
    match (match ss with After => true | Before => false end
           || match sp with Some (PEndpoint EStart) => true | _ => false end),
          (match es with Before => true | After => false end
           || match ep with Some (PEndpoint EEnd) => true | _ => false end) with
    | true, true => FULL | true, false => START
    | false, true => END | false, false => NONE
    end;
  startReferenceSlidingPreference := fun st =>
    match st with START | FULL => BACKWARD | _ => FORWARD end;
  endReferenceSlidingPreference := fun st =>
    match st with END | FULL => FORWARD | _ => BACKWARD end;
  endpointSegment := fun e => match e with EStart => startSegment | EEnd => endSegment end;
  uuid := fun n => ("uuid-" ++ string_of_N (N.of_nat n))%string;
|}.

Definition w0 : World := {| next_lref := 0; next_uuid := 0 |}.

(** A reference at character position [n], with identity [uid]. *)
Definition lrefAt (uid n : nat) (rt : Z) : LocalReferencePosition :=
  {| lref_uid := uid; refType := rt; slidingPreference := Some FORWARD;
     canSlideToEndpoint := Some false; anchor := AtSegment (mkSegment n None) 0;
     lref_properties := Some [(reservedRangeLabelsKey, JArr [JStr "x"])] |}.

(** Interval A of the spec's scenarios: [(0 Before, 5 Before)], label "x". *)
Definition ivA : SequenceInterval :=
  newSequenceInterval "A" "x"
    (lrefAt 0 0 (Z.lor ReferenceType.RangeBegin ReferenceType.SlideOnRemove))
    (lrefAt 1 5 (Z.lor ReferenceType.RangeEnd ReferenceType.SlideOnRemove))
    SlideOnRemoveType None Before Before.

Definition w2 : World := {| next_lref := 2; next_uuid := 0 |}.

(** Scenario 4 of the spec: A = (4 Before, 6 Before) and B = (4 After,
    8 Before) share their start reference. *)
Definition ref4 := lrefAt 10 4 (Z.lor ReferenceType.RangeBegin ReferenceType.SlideOnRemove).
Definition ivU1 : SequenceInterval :=
  newSequenceInterval "A" "x" ref4
    (lrefAt 11 6 (Z.lor ReferenceType.RangeEnd ReferenceType.SlideOnRemove))
    SlideOnRemoveType None Before Before.
Definition ivU2 : SequenceInterval :=
  newSequenceInterval "B" "y" ref4
    (lrefAt 12 8 (Z.lor ReferenceType.RangeEnd ReferenceType.SlideOnRemove))
    SlideOnRemoveType None After Before.

(** Scenario 5 of the spec: (2 After, 9 Before), label "hl", id "abc",
    user properties {"color": "red"}. *)
Definition ivS : SequenceInterval :=
  newSequenceInterval "abc" "hl"
    (lrefAt 20 2 (Z.lor ReferenceType.RangeBegin ReferenceType.SlideOnRemove))
    (lrefAt 21 9 (Z.lor ReferenceType.RangeEnd ReferenceType.SlideOnRemove))
    SlideOnRemoveType (Some [("color"%string, JStr "red")]) After Before.

(** Touching intervals: T1 ends at 5 with side Before, T2 starts at 5 with
    side After, on two distinct references. *)
Definition ivT1 : SequenceInterval :=
  newSequenceInterval "T1" "x"
    (lrefAt 30 0 (Z.lor ReferenceType.RangeBegin ReferenceType.SlideOnRemove))
    (lrefAt 31 5 (Z.lor ReferenceType.RangeEnd ReferenceType.SlideOnRemove))
    SlideOnRemoveType None Before Before.
Definition ivT2 : SequenceInterval :=
  newSequenceInterval "T2" "x"
    (lrefAt 32 5 (Z.lor ReferenceType.RangeBegin ReferenceType.SlideOnRemove))
    (lrefAt 33 8 (Z.lor ReferenceType.RangeEnd ReferenceType.SlideOnRemove))
    SlideOnRemoveType None After Before.

(** An op, as received from the service. *)
Definition msg0 : SequencedMessage := mkMessage 0 "client" 1 0.

(** An interval whose references stay on remove (no [SlideOnRemove]). *)
Definition ivStay : SequenceInterval :=
  newSequenceInterval "S" "x"
    (lrefAt 40 1 (Z.lor ReferenceType.RangeBegin ReferenceType.StayOnRemove))
    (lrefAt 41 4 (Z.lor ReferenceType.RangeEnd ReferenceType.StayOnRemove))
    Simple None Before Before.

End Concrete.

(** ** Comparators

    [compare] is the lexicographic combination of [compareStart],
    [compareEnd] and the comparison of ids below; [compareStart] and
    [compareEnd] are themselves the reference comparison refined by
    [compareSides]. *)

Definition lex {A} (f g : A -> A -> Z) (a b : A) : Z :=
  if f a b =? 0 then g a b else f a b.

(** The comparison of ids at the end of [compare]. *)
Definition compareIds (a b : SequenceInterval) : Z :=
  let thisId := getIntervalId a in
  if truthy_string thisId then
    let bId := getIntervalId b in
    if truthy_string bId then
      if js_string_gt thisId bId then 1
      else if js_string_lt thisId bId then -1 else 0
    else 0
  else 0.

(** A comparator on the values satisfying [D]: antisymmetric, and
    transitive as a preorder. *)
Definition cmp_antisym {A} (D : A -> Prop) (f : A -> A -> Z) : Prop :=
  forall a b, D a -> D b -> f a b = - f b a.

Definition cmp_trans {A} (D : A -> Prop) (f : A -> A -> Z) : Prop :=
  forall a b c, D a -> D b -> D c -> f a b <= 0 -> f b c <= 0 -> f a c <= 0.

Definition hasId (i : SequenceInterval) : Prop := id i <> EmptyString.

(** ** Position change listeners

    [addPositionChangeListeners] and [removePositionChangeListeners] write
    the interval's [callbacks] field and the [callbacks] objects of its two
    endpoint references. A reference's [callbacks] field points to a
    callbacks object that other references may share, so the state is a
    heap of callbacks objects together with, for each reference identity,
    the address its [callbacks] field holds. Listener functions are values
    of [F]. *)
Section Listeners.

Variable F : Type.

(** [Partial<Record<"beforeSlide" | "afterSlide", ...>>]. *)
Record RefCallbacks := mkRefCallbacks {
  beforeSlide : option F;
  afterSlide : option F;
}.

Record ListenerState := mkListenerState {
  (** [this.callbacks]: [{ beforePositionChange, afterPositionChange }]. *)
  iv_callbacks : option (F * F);
  (** [ref.callbacks] of the reference with identity [n]. *)
  ref_callbacks : nat -> option nat;
  (** The callbacks objects, by address. *)
  cb_heap : nat -> RefCallbacks;
  cb_next : nat;
}.

Definition upd {B} (m : nat -> B) (k : nat) (v : B) : nat -> B :=
  fun k' => if Nat.eqb k' k then v else m k'.

(** [this.callbacks = { beforePositionChange, afterPositionChange }]. *)
Definition setIvCallbacks (c : option (F * F)) (st : ListenerState) : ListenerState :=
  {| iv_callbacks := c; ref_callbacks := ref_callbacks st;
     cb_heap := cb_heap st; cb_next := cb_next st |}.

(** [(ref.callbacks ??= {})]: the address of the reference's callbacks
    object, a new empty one if the field is undefined. *)
Definition ensureCallbacks (r : nat) (st : ListenerState) : nat * ListenerState :=
  match ref_callbacks st r with
  | Some a => (a, st)
  | None =>
      let a := cb_next st in
      (a, {| iv_callbacks := iv_callbacks st;
             ref_callbacks := upd (ref_callbacks st) r (Some a);
             cb_heap := upd (cb_heap st) a (mkRefCallbacks None None);
             cb_next := S a |})
  end.

(** [cbs.beforeSlide = f] and [cbs.afterSlide = f] on the object at [a]. *)
Definition setBeforeSlide (a : nat) (f : F) (st : ListenerState) : ListenerState :=
  {| iv_callbacks := iv_callbacks st; ref_callbacks := ref_callbacks st;
     cb_heap := upd (cb_heap st) a
                  (mkRefCallbacks (Some f) (afterSlide (cb_heap st a)));
     cb_next := cb_next st |}.

Definition setAfterSlide (a : nat) (f : F) (st : ListenerState) : ListenerState :=
  {| iv_callbacks := iv_callbacks st; ref_callbacks := ref_callbacks st;
     cb_heap := upd (cb_heap st) a
                  (mkRefCallbacks (beforeSlide (cb_heap st a)) (Some f));
     cb_next := cb_next st |}.

(** [ref.callbacks = undefined]. *)
Definition clearRefCallbacks (r : nat) (st : ListenerState) : ListenerState :=
  {| iv_callbacks := iv_callbacks st; ref_callbacks := upd (ref_callbacks st) r None;
     cb_heap := cb_heap st; cb_next := cb_next st |}.

Definition addPositionChangeListeners (i : SequenceInterval)
  (beforePositionChange afterPositionChange : F) (st : ListenerState)
  : ListenerState :=
  match iv_callbacks st with
  | Some _ => st
  | None =>
      let st1 := setIvCallbacks (Some (beforePositionChange, afterPositionChange)) st in
      let '(startCbs, st2) := ensureCallbacks (lref_uid (start i)) st1 in
      let '(endCbs, st3) := ensureCallbacks (lref_uid (end' i)) st2 in
      (* startCbs.beforeSlide = endCbs.beforeSlide = beforePositionChange *)
      let st4 := setBeforeSlide startCbs beforePositionChange
                   (setBeforeSlide endCbs beforePositionChange st3) in
      (* startCbs.afterSlide = endCbs.afterSlide = afterPositionChange *)
      setAfterSlide startCbs afterPositionChange
        (setAfterSlide endCbs afterPositionChange st4)
  end.

Definition removePositionChangeListeners (i : SequenceInterval) (st : ListenerState)
  : ListenerState :=
  match iv_callbacks st with
  | Some _ =>
      clearRefCallbacks (lref_uid (end' i))
        (clearRefCallbacks (lref_uid (start i)) (setIvCallbacks None st))
  | None => st
  end.

End Listeners.

Arguments mkRefCallbacks {F}.
Arguments mkListenerState {F}.
Arguments iv_callbacks {F}.
Arguments ref_callbacks {F}.
Arguments cb_heap {F}.
Arguments cb_next {F}.
Arguments setIvCallbacks {F}.
Arguments ensureCallbacks {F}.
Arguments setBeforeSlide {F}.
Arguments setAfterSlide {F}.
Arguments clearRefCallbacks {F}.
Arguments addPositionChangeListeners {F}.
Arguments removePositionChangeListeners {F}.

(** ** Inversion of the monad *)

Lemma bind_Ok {A B} (m : M A) (k : A -> M B) w b w' :
  bind m k w = Ok b w' -> exists a w1, m w = Ok a w1 /\ k a w1 = Ok b w'.
Proof.
  unfold bind. destruct (m w) as [a w1|e]; [|discriminate].
  intros H. exists a, w1. auto.
Qed.

Lemma ret_Ok {A} (a b : A) w w' : ret a w = Ok b w' -> a = b /\ w = w'.
Proof. unfold ret. intros H. inversion H. auto. Qed.

Ltac decompose_ok :=
  repeat match goal with
  | H : bind _ _ _ = Ok _ _ |- _ =>
      let a := fresh "a" in let w := fresh "w" in let E := fresh "E" in
      apply bind_Ok in H; destruct H as (a & w & E & H); cbv beta iota zeta in H
  | H : ret _ _ = Ok _ _ |- _ =>
      let Ha := fresh "Ha" in let Hw := fresh "Hw" in
      apply ret_Ok in H; destruct H as [Ha Hw]; subst
  end.

Lemma lref_addProperties_same r ps : lref_uid (lref_addProperties r ps) = lref_uid r.
Proof. reflexivity. Qed.

(** The reference type [modify] gives a replacement endpoint without an op:
    [SlideOnRemove] cleared, [StayOnRemove] set. *)
Lemma modifyRefType_local b :
  refTypeIncludesFlag (modifyRefType None b) ReferenceType.SlideOnRemove = false /\
  refTypeIncludesFlag (modifyRefType None b) ReferenceType.StayOnRemove = true.
Proof.
  unfold refTypeIncludesFlag, modifyRefType, ReferenceType.SlideOnRemove,
    ReferenceType.StayOnRemove.
  rewrite !Z.land_lor_distr_l, <- !Z.land_assoc.
  rewrite (Z.land_comm (Z.lnot 64) 64), Z.land_lnot_diag, Z.land_0_r.
  split.
  - reflexivity.
  - change (Z.land 128 128) with 128.
    destruct (Z.lor _ 128 =? 0) eqn:E; [|reflexivity].
    apply Z.eqb_eq, Z.lor_eq_0_iff in E. destruct E; discriminate.
Qed.

(** ** Reference types of created references *)

Section Factory.

Variable mt : MergeTree.

Lemma createPositionReferenceFromSegoff_refType segoff rt op ls fs sp cs rb w r w' :
  createPositionReferenceFromSegoff mt segoff rt op ls fs sp cs rb w = Ok r w' ->
  refType r = rt.
Proof.
  unfold createPositionReferenceFromSegoff, createLocalReferencePosition,
    createDetachedLocalReferencePosition, throw.
  destruct segoff; [| destruct (needsSegmentError rt op ls fs rb) |];
    intros H; inversion H; reflexivity.
Qed.

Lemma createPositionReference_refType pos rt op fs ls sp ex useNew rb w r w' :
  createPositionReference mt pos rt op fs ls sp ex useNew rb w = Ok r w' ->
  refType r = rt.
Proof.
  unfold createPositionReference, bind, assert, ret, throw.
  destruct op as [o|];
    [destruct (negb (Z.land rt ReferenceType.SlideOnRemove =? 0))
    | destruct ((Z.land rt ReferenceType.SlideOnRemove =? 0) || truthy_bool fs)];
    try discriminate; apply createPositionReferenceFromSegoff_refType.
Qed.

Lemma lref_addProperties_refType r ps : refType (lref_addProperties r ps) = refType r.
Proof. reflexivity. Qed.

(** The two references [createSequenceInterval] creates, and the interval
    it builds from them. *)
Lemma createSequenceInterval_inv label id st en ty op fs useNew props rb w iv w' :
  createSequenceInterval mt label id st en ty op fs useNew props rb w = Ok iv w' ->
  exists startPos startSide' endPos endSide' sr er w1,
    createPositionReference mt startPos (fst (rangeRefTypes ty op fs)) op fs None
      (Some (startReferenceSlidingPreference mt
               (computeStickinessFromSide mt (Some startPos) startSide'
                  (Some endPos) endSide')))
      (SlidingPreference_eqb (startReferenceSlidingPreference mt
               (computeStickinessFromSide mt (Some startPos) startSide'
                  (Some endPos) endSide')) BACKWARD)
      useNew rb w = Ok sr w1 /\
    createPositionReference mt endPos (snd (rangeRefTypes ty op fs)) op fs None
      (Some (endReferenceSlidingPreference mt
               (computeStickinessFromSide mt (Some startPos) startSide'
                  (Some endPos) endSide')))
      (SlidingPreference_eqb (endReferenceSlidingPreference mt
               (computeStickinessFromSide mt (Some startPos) startSide'
                  (Some endPos) endSide')) FORWARD)
      useNew rb w1 = Ok er w' /\
    iv = newSequenceInterval id label
           (lref_addProperties sr [(reservedRangeLabelsKey, JArr [JStr label])])
           (lref_addProperties er [(reservedRangeLabelsKey, JArr [JStr label])])
           ty (option_map clearReservedKeys props) startSide' endSide'.
Proof.
  unfold createSequenceInterval.
  destruct (endpointPosAndSide (Some (opt_default st (SPPos (PEndpoint EStart))))
              (Some (opt_default en (SPPos (PEndpoint EEnd)))))
    as [[[[sp|] [ss|]] [ep|]] [es|]]; try discriminate.
  destruct (rangeRefTypes ty op fs) as [bt et] eqn:Hrt.
  unfold bind at 1.
  match goal with |- context [createPositionReference ?a ?b ?c ?d ?e ?f ?g ?h ?i ?j w] =>
    destruct (createPositionReference a b c d e f g h i j w) as [sr w1|] eqn:E1 end;
    [| discriminate].
  unfold bind.
  match goal with |- context [createPositionReference ?a ?b ?c ?d ?e ?f ?g ?h ?i ?j w1] =>
    destruct (createPositionReference a b c d e f g h i j w1) as [er w2|] eqn:E2 end;
    [| discriminate].
  unfold ret. intros H; inversion H; subst.
  exists sp, ss, ep, es, sr, er, w1. simpl. auto.
Qed.

End Factory.

(** ** Comparator lemmas *)

Section Comparators.

Context {A : Type} (D : A -> Prop).

Lemma cmp_trans_strict_l (f : A -> A -> Z) :
  cmp_antisym D f -> cmp_trans D f ->
  forall a b c, D a -> D b -> D c -> f a b < 0 -> f b c <= 0 -> f a c < 0.
Proof.
  intros Han Htr a b c Da Db Dc H1 H2.
  destruct (Z.lt_ge_cases (f a c) 0) as [|H3]; [assumption|].
  assert (f c a <= 0) by (rewrite (Han c a Dc Da); lia).
  assert (f b a <= 0) by (apply (Htr b c a); assumption).
  rewrite (Han b a Db Da) in *. lia.
Qed.

Lemma cmp_trans_strict_r (f : A -> A -> Z) :
  cmp_antisym D f -> cmp_trans D f ->
  forall a b c, D a -> D b -> D c -> f a b <= 0 -> f b c < 0 -> f a c < 0.
Proof.
  intros Han Htr a b c Da Db Dc H1 H2.
  destruct (Z.lt_ge_cases (f a c) 0) as [|H3]; [assumption|].
  assert (f c a <= 0) by (rewrite (Han c a Dc Da); lia).
  assert (f c b <= 0) by (apply (Htr c a b); assumption).
  rewrite (Han c b Dc Db) in *. lia.
Qed.

Lemma lex_antisym (f g : A -> A -> Z) :
  cmp_antisym D f -> cmp_antisym D g -> cmp_antisym D (lex f g).
Proof.
  intros Hf Hg a b Da Db. unfold lex.
  rewrite (Hf a b Da Db), (Hg a b Da Db).
  destruct (- f b a =? 0) eqn:E1, (f b a =? 0) eqn:E2;
    rewrite ?Z.eqb_eq, ?Z.eqb_neq in *; lia.
Qed.

Lemma lex_trans (f g : A -> A -> Z) :
  cmp_antisym D f -> cmp_trans D f -> cmp_antisym D g -> cmp_trans D g ->
  cmp_trans D (lex f g).
Proof.
  intros Hfa Hft Hga Hgt a b c Da Db Dc. unfold lex.
  pose proof (cmp_trans_strict_l f Hfa Hft a b c Da Db Dc).
  pose proof (cmp_trans_strict_r f Hfa Hft a b c Da Db Dc).
  pose proof (Hft a b c Da Db Dc).
  pose proof (Hft c b a Dc Db Da).
  pose proof (Hfa a b Da Db). pose proof (Hfa b c Db Dc). pose proof (Hfa a c Da Dc).
  pose proof (Hgt a b c Da Db Dc).
  destruct (f a b =? 0) eqn:E1, (f b c =? 0) eqn:E2, (f a c =? 0) eqn:E3;
    rewrite ?Z.eqb_eq, ?Z.eqb_neq in *; intros; lia.
Qed.

End Comparators.

Lemma js_string_compare_refl s : js_string_compare s s = Eq.
Proof.
  induction s as [|c s IH]; simpl; [reflexivity|].
  rewrite Nat.compare_refl. exact IH.
Qed.

Lemma js_string_compare_antisym a b :
  js_string_compare b a = CompOpp (js_string_compare a b).
Proof.
  revert b; induction a as [|c a IH]; intros [|d b]; simpl; try reflexivity.
  rewrite (Nat.compare_antisym (nat_of_ascii d) (nat_of_ascii c)).
  destruct (Nat.compare (nat_of_ascii d) (nat_of_ascii c)); simpl; auto.
Qed.

Lemma js_string_compare_eq a b : js_string_compare a b = Eq -> a = b.
Proof.
  revert b; induction a as [|c a IH]; intros [|d b]; simpl; try discriminate; auto.
  destruct (Nat.compare (nat_of_ascii c) (nat_of_ascii d)) eqn:E; try discriminate.
  intros H. apply Nat.compare_eq_iff in E.
  rewrite <- (ascii_nat_embedding c), <- (ascii_nat_embedding d), E.
  f_equal. apply IH, H.
Qed.

Lemma js_string_compare_lt_trans a b c :
  js_string_compare a b = Lt -> js_string_compare b c = Lt -> js_string_compare a c = Lt.
Proof.
  revert b c; induction a as [|x a IH]; intros [|y b] [|z c]; simpl;
    try discriminate; auto.
  destruct (Nat.compare_spec (nat_of_ascii x) (nat_of_ascii y)) as [E1|E1|E1];
    try discriminate;
  destruct (Nat.compare_spec (nat_of_ascii y) (nat_of_ascii z)) as [E2|E2|E2];
    try discriminate;
  intros H1 H2;
  destruct (Nat.compare_spec (nat_of_ascii x) (nat_of_ascii z));
    try reflexivity; try lia; eauto.
Qed.

Lemma compareIds_spec a b :
  hasId a -> hasId b ->
  compareIds a b =
  match js_string_compare (id a) (id b) with Gt => 1 | Lt => -1 | Eq => 0 end.
Proof.
  unfold compareIds, hasId, getIntervalId, js_string_gt, js_string_lt.
  destruct (id a), (id b); try congruence; intros _ _; cbn [truthy_string];
    destruct (js_string_compare _ _); reflexivity.
Qed.

Lemma compareIds_antisym : cmp_antisym hasId compareIds.
Proof.
  intros a b Da Db. rewrite !compareIds_spec by assumption.
  rewrite (js_string_compare_antisym (id a) (id b)).
  destruct (js_string_compare (id a) (id b)); reflexivity.
Qed.

Lemma compareIds_trans : cmp_trans hasId compareIds.
Proof.
  intros a b c Da Db Dc. rewrite !compareIds_spec by assumption.
  destruct (js_string_compare (id a) (id b)) eqn:E1; try lia;
  destruct (js_string_compare (id b) (id c)) eqn:E2; try lia;
  repeat match goal with
  | E : js_string_compare _ _ = Eq |- _ => apply js_string_compare_eq in E
  end;
  repeat match goal with E : id _ = id _ |- _ => rewrite E in * end;
  rewrite ?E1, ?E2, ?js_string_compare_refl; try lia;
  rewrite (js_string_compare_lt_trans _ _ _ E1 E2); lia.
Qed.

Lemma compareSides_antisym {A} (D : A -> Prop) (side : A -> Side) :
  cmp_antisym D (fun a b => compareSides (side a) (side b)).
Proof. intros a b _ _. destruct (side a), (side b); reflexivity. Qed.

Lemma compareSides_trans {A} (D : A -> Prop) (side : A -> Side) :
  cmp_trans D (fun a b => compareSides (side a) (side b)).
Proof.
  intros a b c _ _ _. cbv beta. unfold compareSides.
  destruct (side a), (side b), (side c); simpl; lia.
Qed.

Lemma flip_antisym {A} (D : A -> Prop) (f : A -> A -> Z) :
  cmp_antisym D f -> cmp_antisym D (fun a b => f b a).
Proof. intros H a b Da Db. apply H; assumption. Qed.

Lemma flip_trans {A} (D : A -> Prop) (f : A -> A -> Z) :
  cmp_trans D f -> cmp_trans D (fun a b => f b a).
Proof. intros H a b c Da Db Dc H1 H2. apply (H c b a); assumption. Qed.

Lemma compare_lex mt a b :
  compare mt a b = lex (compareStart mt) (lex (compareEnd mt) compareIds) a b.
Proof. reflexivity. Qed.

Lemma compareStart_lex mt a b :
  compareStart mt a b =
  lex (fun a b => compareReferencePositions mt (start a) (start b))
      (fun a b => compareSides (startSide a) (startSide b)) a b.
Proof. reflexivity. Qed.

Lemma compareEnd_lex mt a b :
  compareEnd mt a b =
  lex (fun a b => compareReferencePositions mt (end' a) (end' b))
      (fun a b => compareSides (endSide b) (endSide a)) a b.
Proof. reflexivity. Qed.

(** ** Property maps *)

Lemma prop_lookup_set_eq k v ps : prop_lookup k (prop_set k v ps) = Some v.
Proof.
  induction ps as [|[k' v'] ps IH]; simpl.
  - rewrite String.eqb_refl. reflexivity.
  - destruct (String.eqb k k') eqn:E; simpl; rewrite ?E; auto.
Qed.

Lemma prop_lookup_set_neq k k' v ps :
  k <> k' -> prop_lookup k (prop_set k' v ps) = prop_lookup k ps.
Proof.
  intros Hne. induction ps as [|[k0 v0] ps IH]; simpl.
  - apply String.eqb_neq in Hne. rewrite Hne. reflexivity.
  - destruct (String.eqb k' k0) eqn:E; simpl.
    + apply String.eqb_eq in E. subst k0.
      apply String.eqb_neq in Hne. rewrite Hne. reflexivity.
    + destruct (String.eqb k k0); auto.
Qed.

Lemma prop_set_keys x k v ps :
  In x (map fst (prop_set k v ps)) -> x = k \/ In x (map fst ps).
Proof.
  induction ps as [|[k0 v0] ps IH]; simpl.
  - intros [H|[]]. auto.
  - destruct (String.eqb k k0); simpl; intros [H|H]; auto.
    destruct (IH H); auto.
Qed.

Lemma prop_set_nodup k v ps :
  NoDup (map fst ps) -> NoDup (map fst (prop_set k v ps)).
Proof.
  induction ps as [|[k0 v0] ps IH]; simpl; intros Hnd.
  - constructor; [intros []| constructor].
  - inversion Hnd as [|? ? Hn Hnd']; subst.
    destruct (String.eqb k k0) eqn:E; simpl.
    + constructor; assumption.
    + constructor; [| auto].
      intros Hin. apply prop_set_keys in Hin as [Hin|Hin]; [| contradiction].
      subst. rewrite String.eqb_refl in E. discriminate.
Qed.

Lemma prop_lookup_notin k ps : ~ In k (map fst ps) -> prop_lookup k ps = None.
Proof.
  induction ps as [|[k0 v0] ps IH]; simpl; [reflexivity|].
  intros Hn. destruct (String.eqb k k0) eqn:E.
  - apply String.eqb_eq in E. subst. exfalso. auto.
  - auto.
Qed.

(** Reading a key after [addProperties] of an object with distinct keys. *)
Lemma prop_lookup_addProperties k old new :
  NoDup (map fst new) ->
  prop_lookup k (addProperties old new) =
  match prop_lookup k new with Some v => Some v | None => prop_lookup k old end.
Proof.
  unfold addProperties. revert old.
  induction new as [|[k0 v0] new IH]; intros old Hnd; simpl; [reflexivity|].
  inversion Hnd as [|? ? Hn Hnd']; subst.
  rewrite IH by assumption. simpl.
  destruct (String.eqb k k0) eqn:E.
  - apply String.eqb_eq in E. subst k0.
    rewrite prop_lookup_notin by assumption. apply prop_lookup_set_eq.
  - apply String.eqb_neq in E.
    destruct (prop_lookup k new); [reflexivity|].
    apply prop_lookup_set_neq. exact E.
Qed.

(** ** Claims *)

Import Concrete.

(** C1 (counterexample): a transient interval created by
    [createSequenceInterval] does not have [RangeBegin | Transient] as the
    reference type of its start: [beginRefType] is overwritten with
    [Transient] alone. *)
Lemma C1_transient_start_not_rangeBegin :
  match createSequenceInterval mt0 "t" "t1" (Some (SPPos (PNum 3)))
          (Some (SPPos (PNum 5))) Transient None None false None None w0 with
  | Ok iv _ =>
      refType (start iv) <> Z.lor ReferenceType.RangeBegin ReferenceType.Transient
  | Throw _ => False
  end.
Proof. vm_compute. discriminate. Qed.

(** C1 (amended): the endpoints of an interval created by
    [createSequenceInterval] have reference type exactly [Transient] when
    the interval type is [Transient]; otherwise the start has [RangeBegin]
    and the end [RangeEnd], each with [SlideOnRemove] OR-ed in when an op is
    given or [fromSnapshot] is true, and with [StayOnRemove] OR-ed in
    otherwise, so exactly one of the two flags is set. *)
Theorem createSequenceInterval_endpoint_refTypes mt label id st en ty op fs useNew
  props rb w iv w' :
  createSequenceInterval mt label id st en ty op fs useNew props rb w = Ok iv w' ->
  (ty = Transient ->
   refType (start iv) = ReferenceType.Transient /\
   refType (end' iv) = ReferenceType.Transient) /\
  (ty <> Transient ->
   let slides := is_defined op || truthy_bool fs in
   let flag := if slides then ReferenceType.SlideOnRemove
               else ReferenceType.StayOnRemove in
   refType (start iv) = Z.lor ReferenceType.RangeBegin flag /\
   refType (end' iv) = Z.lor ReferenceType.RangeEnd flag /\
   refTypeIncludesFlag (refType (start iv)) ReferenceType.SlideOnRemove = slides /\
   refTypeIncludesFlag (refType (start iv)) ReferenceType.StayOnRemove = negb slides /\
   refTypeIncludesFlag (refType (end' iv)) ReferenceType.SlideOnRemove = slides /\
   refTypeIncludesFlag (refType (end' iv)) ReferenceType.StayOnRemove = negb slides).
Proof.
  intros H.
  destruct (createSequenceInterval_inv mt _ _ _ _ _ _ _ _ _ _ _ _ _ H)
    as (sp & ss & ep & es & sr & er & w1 & E1 & E2 & ->).
  apply createPositionReference_refType in E1, E2.
  simpl. rewrite E1, E2. unfold rangeRefTypes.
  split.
  - intros ->. simpl. auto.
  - intros Hty. destruct ty; [| | | congruence]; simpl;
      destruct (is_defined op || truthy_bool fs); vm_compute; repeat split.
Qed.

Lemma C1_witness :
  exists iv w',
    createSequenceInterval mt0 "hl" "abc" (Some (SPInterior (PNum 2) After))
      (Some (SPInterior (PNum 9) Before)) SlideOnRemoveType None (Some true) false
      None None w0 = Ok iv w' /\
    refType (start iv) = Z.lor ReferenceType.RangeBegin ReferenceType.SlideOnRemove.
Proof.
  eexists _, _. split; [cbv; reflexivity |].
  refine (proj1 (proj2 (createSequenceInterval_endpoint_refTypes mt0 "hl" "abc"
    (Some (SPInterior (PNum 2) After)) (Some (SPInterior (PNum 9) Before))
    SlideOnRemoveType None (Some true) false None None w0 _ _ eq_refl) _)).
  discriminate.
Defined.

(** C2: [i.modify(label, start, end, op, ...)] returns an interval with the
    id of [i]; an endpoint given no new place is the very reference of [i];
    a replacement endpoint has [SlideOnRemove] cleared and [StayOnRemove]
    set when there is no op, and keeps the reference type of the endpoint it
    replaces when there is one. *)
Theorem modify_id_and_endpoints mt i label' st en op localSeq useNew w i' w' :
  modify mt i label' st en op localSeq useNew w = Ok i' w' ->
  getIntervalId i' = getIntervalId i /\
  (st = None -> start i' = start i) /\
  (en = None -> end' i' = end' i) /\
  (st <> None ->
   (op = None ->
    refTypeIncludesFlag (refType (start i')) ReferenceType.SlideOnRemove = false /\
    refTypeIncludesFlag (refType (start i')) ReferenceType.StayOnRemove = true) /\
   (op <> None -> refType (start i') = refType (start i))) /\
  (en <> None ->
   (op = None ->
    refTypeIncludesFlag (refType (end' i')) ReferenceType.SlideOnRemove = false /\
    refTypeIncludesFlag (refType (end' i')) ReferenceType.StayOnRemove = true) /\
   (op <> None -> refType (end' i') = refType (end' i))).
Proof.
  intros H. unfold modify in H.
  destruct st as [[ps|ps ss]|], en as [[pe|pe se]|];
    cbn [endpointPosAndSide placePosAndSide] in H; decompose_ok;
    repeat match goal with
    | E : createPositionReference _ _ _ _ _ _ _ _ _ _ _ = Ok _ _ |- _ =>
        apply createPositionReference_refType in E
    end;
    cbn [copyPropertiesAndManager newSequenceInterval getIntervalId id start end'];
    (split; [reflexivity|]);
    repeat split; try congruence;
    repeat match goal with
    | |- context [match lref_properties ?r with _ => _ end] =>
        destruct (lref_properties r)
    end;
    rewrite ?lref_addProperties_refType;
    repeat match goal with
    | E : refType ?r = _ |- context [refType ?r] => rewrite E
    end;
    intros; subst; try apply modifyRefType_local;
    destruct op; try congruence; reflexivity.
Qed.

Lemma C2_witness :
  exists i' w',
    modify mt0 ivA "x" (Some (SPInterior (PNum 1) Before)) None None None false w2
      = Ok i' w' /\
    getIntervalId i' = getIntervalId ivA /\ end' i' = end' ivA.
Proof.
  eexists _, _. split; [cbv; reflexivity |].
  destruct (modify_id_and_endpoints mt0 ivA "x" (Some (SPInterior (PNum 1) Before))
              None None None false w2 _ _ eq_refl) as (Hid & _ & Hend & _).
  split; [exact Hid | exact (Hend eq_refl)].
Defined.

(** C3 (counterexample): a request that carries the local sequence number
    [0] and has no segment still raises "Non-transient references need
    segment": the code tests [!localSeq], and [0] is falsy. *)
Lemma C3_localSeq_zero_needs_segment :
  createPositionReferenceFromSegoff mt0 SegoffNone
    (Z.lor ReferenceType.RangeBegin ReferenceType.StayOnRemove) None (Some 0) None
    (Some FORWARD) (Some false) None w0
  = Throw (UsageError "Non-transient references need segment").
Proof. reflexivity. Qed.

(** C3 (amended): [createPositionReferenceFromSegoff] raises exactly when
    the segment is undefined, there is no op, [localSeq] is undefined or
    [0], [fromSnapshot] and [rollback] are not [true] and the reference type
    does not include [Transient]; the error is the UsageError "Non-transient
    references need segment". In every other undefined-segment case it
    returns a fresh detached reference carrying only the sliding preference
    and the reference type. *)
Theorem createPositionReferenceFromSegoff_needs_segment mt segoff rt op ls fs sp cs rb w :
  ((exists e, createPositionReferenceFromSegoff mt segoff rt op ls fs sp cs rb w = Throw e)
   <-> segoff = SegoffNone /\ op = None /\ (ls = None \/ ls = Some 0) /\
       fs <> Some true /\ rb <> Some true /\
       refTypeIncludesFlag rt ReferenceType.Transient = false) /\
  (forall e, createPositionReferenceFromSegoff mt segoff rt op ls fs sp cs rb w = Throw e ->
   e = UsageError "Non-transient references need segment") /\
  (segoff = SegoffNone ->
   op <> None \/ (exists n, ls = Some n /\ n <> 0) \/ fs = Some true \/ rb = Some true \/
   refTypeIncludesFlag rt ReferenceType.Transient = true ->
   createPositionReferenceFromSegoff mt segoff rt op ls fs sp cs rb w =
   Ok {| lref_uid := next_lref w; refType := rt; slidingPreference := sp;
         canSlideToEndpoint := None; anchor := Detached; lref_properties := None |}
      {| next_lref := S (next_lref w); next_uuid := next_uuid w |}).
Proof.
  unfold createPositionReferenceFromSegoff, needsSegmentError,
    createLocalReferencePosition, createDetachedLocalReferencePosition, throw.
  destruct (refTypeIncludesFlag rt ReferenceType.Transient);
  destruct segoff, op as [o|], ls as [[|n|n]|], fs as [[|]|], rb as [[|]|];
    cbn [is_defined truthy_num truthy_bool negb andb Z.eqb];
    (split; [split; [intros [ex He] | intros Hc] | split; [intros ex He | intros Hs Hc]]);
    try discriminate;
    try (inversion He; reflexivity);
    try (eexists; reflexivity);
    try reflexivity;
    try (exfalso; decompose [and or ex] Hc; congruence);
    repeat split; try congruence; auto.
Qed.

Lemma C3_witness :
  createPositionReferenceFromSegoff mt0 SegoffNone
    (Z.lor ReferenceType.RangeBegin ReferenceType.StayOnRemove) None (Some 4) None
    (Some FORWARD) (Some false) None w0
  = Ok {| lref_uid := 0;
          refType := Z.lor ReferenceType.RangeBegin ReferenceType.StayOnRemove;
          slidingPreference := Some FORWARD; canSlideToEndpoint := None;
          anchor := Detached; lref_properties := None |}
       {| next_lref := 1; next_uuid := 0 |}.
Proof.
  apply (proj2 (proj2 (createPositionReferenceFromSegoff_needs_segment mt0 SegoffNone
    (Z.lor ReferenceType.RangeBegin ReferenceType.StayOnRemove) None (Some 4) None
    (Some FORWARD) (Some false) None w0))).
  - reflexivity.
  - right. left. exists 4. split; [reflexivity | discriminate].
Defined.

(** C4: deserializing [{start: 3, end: 7, properties: {}}] synthesizes the
    legacy id "legacy3-7", but the labels are [undefined], not [[]]: the
    destructuring of [referenceRangeLabels] has no default, although the
    declared result type is [labels: string[]]. *)
Theorem getSerializedProperties_legacy_labels_undefined :
  getSerializedProperties
    {| ser_start := Some (PNum 3); ser_end := Some (PNum 7);
       ser_properties := Some []; ser_intervalType := SlideOnRemoveType;
       ser_sequenceNumber := 0; ser_stickiness := NONE;
       ser_startSide := None; ser_endSide := None |}
  = {| sp_id := JStr "legacy3-7"; sp_labels := JUndefined; sp_properties := [] |}.
Proof. reflexivity. Qed.

(** C5: [compare] is lexicographic on [compareStart], [compareEnd] and the
    ids, the ids compared as strings; when the reference comparator is
    antisymmetric and transitive (a total preorder), [compare a a = 0] for
    every interval and, on intervals with non-empty ids, [compare] is
    antisymmetric and transitive (both for [<= 0] and for [< 0]). *)
Theorem compare_total_order mt
  (Hanti : forall x y, compareReferencePositions mt x y = - compareReferencePositions mt y x)
  (Htrans : forall x y z, compareReferencePositions mt x y <= 0 ->
            compareReferencePositions mt y z <= 0 -> compareReferencePositions mt x z <= 0) :
  (forall a b, hasId a -> hasId b ->
   compare mt a b =
   if compareStart mt a b =? 0 then
     if compareEnd mt a b =? 0 then
       match js_string_compare (id a) (id b) with Gt => 1 | Lt => -1 | Eq => 0 end
     else compareEnd mt a b
   else compareStart mt a b) /\
  (forall a, compare mt a a = 0) /\
  (forall a b, hasId a -> hasId b -> compare mt a b = - compare mt b a) /\
  (forall a b c, hasId a -> hasId b -> hasId c ->
   compare mt a b <= 0 -> compare mt b c <= 0 -> compare mt a c <= 0) /\
  (forall a b c, hasId a -> hasId b -> hasId c ->
   compare mt a b < 0 -> compare mt b c < 0 -> compare mt a c < 0).
Proof.
  assert (HrS : cmp_antisym hasId (fun a b => compareReferencePositions mt (start a) (start b)))
    by (intros a b _ _; apply Hanti).
  assert (HrS' : cmp_trans hasId (fun a b => compareReferencePositions mt (start a) (start b)))
    by (intros a b c _ _ _; apply Htrans).
  assert (HrE : cmp_antisym hasId (fun a b => compareReferencePositions mt (end' a) (end' b)))
    by (intros a b _ _; apply Hanti).
  assert (HrE' : cmp_trans hasId (fun a b => compareReferencePositions mt (end' a) (end' b)))
    by (intros a b c _ _ _; apply Htrans).
  set (rS := fun a b => compareReferencePositions mt (start a) (start b)) in *.
  set (rE := fun a b => compareReferencePositions mt (end' a) (end' b)) in *.
  set (sS := fun a b => compareSides (startSide a) (startSide b)).
  set (sE := fun a b => compareSides (endSide b) (endSide a)).
  assert (HsSA : cmp_antisym hasId sS) by apply compareSides_antisym.
  assert (HsST : cmp_trans hasId sS) by apply compareSides_trans.
  assert (HsEA : cmp_antisym hasId sE)
    by exact (flip_antisym hasId _ (compareSides_antisym hasId endSide)).
  assert (HsET : cmp_trans hasId sE)
    by exact (flip_trans hasId _ (compareSides_trans hasId endSide)).
  assert (HsA : cmp_antisym hasId (compareStart mt))
    by exact (lex_antisym hasId rS sS HrS HsSA).
  assert (HsT : cmp_trans hasId (compareStart mt))
    by exact (lex_trans hasId rS sS HrS HrS' HsSA HsST).
  assert (HeA : cmp_antisym hasId (compareEnd mt))
    by exact (lex_antisym hasId rE sE HrE HsEA).
  assert (HeT : cmp_trans hasId (compareEnd mt))
    by exact (lex_trans hasId rE sE HrE HrE' HsEA HsET).
  assert (HieA : cmp_antisym hasId (lex (compareEnd mt) compareIds))
    by exact (lex_antisym hasId _ _ HeA compareIds_antisym).
  assert (HieT : cmp_trans hasId (lex (compareEnd mt) compareIds))
    by exact (lex_trans hasId _ _ HeA HeT compareIds_antisym compareIds_trans).
  assert (HA : cmp_antisym hasId (compare mt))
    by exact (lex_antisym hasId _ _ HsA HieA).
  assert (HT : cmp_trans hasId (compare mt))
    by exact (lex_trans hasId _ _ HsA HsT HieA HieT).
  split; [| split; [| split; [| split]]].
  - intros a b Da Db. rewrite compare_lex. unfold lex at 1 2.
    rewrite (compareIds_spec a b Da Db). reflexivity.
  - intros a.
    pose proof (Hanti (start a) (start a)) as Hs.
    pose proof (Hanti (end' a) (end' a)) as He.
    unfold compare, compareStart, compareEnd, js_string_gt, js_string_lt.
    cbv zeta. rewrite js_string_compare_refl.
    replace (compareReferencePositions mt (start a) (start a)) with 0 by lia.
    replace (compareReferencePositions mt (end' a) (end' a)) with 0 by lia.
    unfold compareSides.
    destruct (startSide a), (endSide a), (truthy_string (getIntervalId a)); reflexivity.
  - exact HA.
  - exact HT.
  - intros a b c Da Db Dc H1 H2.
    exact (cmp_trans_strict_l hasId (compare mt) HA HT a b c Da Db Dc H1 (Z.lt_le_incl _ _ H2)).
Qed.

Lemma C5_witness : compare mt0 ivA ivA = 0.
Proof.
  refine (proj1 (proj2 (compare_total_order mt0 _ _)) ivA).
  - intros x y. cbn [compareReferencePositions mt0]. unfold cmp. lia.
  - intros x y z. cbn [compareReferencePositions mt0]. unfold cmp. lia.
Defined.

(** C6: [a.union(b)] starts at [minReferencePosition(a.start, b.start)] and
    ends at [maxReferencePosition(a.end, b.end)]; on identical start
    references its start side is [Before] if either side is [Before] and
    [After] otherwise, on identical end references its end side is [After]
    unless both are [Before]; its id is the next value of [uuid()], and it
    has the label and interval type of [a] and empty properties. *)
Theorem union_spec mt a b w u w' :
  union mt a b w = Ok u w' ->
  start u = minReferencePosition mt (start a) (start b) /\
  end' u = maxReferencePosition mt (end' a) (end' b) /\
  (lref_same (start a) (start b) = true ->
   startSide u = if Side_eqb (startSide a) Before || Side_eqb (startSide b) Before
                 then Before else After) /\
  (lref_same (end' a) (end' b) = true ->
   endSide u = if Side_eqb (endSide a) Before && Side_eqb (endSide b) Before
               then Before else After) /\
  id u = uuid mt (next_uuid w) /\ next_uuid w' = S (next_uuid w) /\
  label u = label a /\ intervalType u = intervalType a /\ properties u = [].
Proof.
  unfold union, bind, gen_uuid, ret. intros H. inversion H; subst; clear H.
  cbn [newSequenceInterval start end' startSide endSide id label intervalType
       properties next_uuid].
  repeat split; intros Hs; rewrite Hs;
    destruct (startSide a), (startSide b), (endSide a), (endSide b); reflexivity.
Qed.

Lemma C6_witness :
  exists u w',
    union mt0 ivU1 ivU2 w2 = Ok u w' /\ start u = start ivU1 /\ startSide u = Before.
Proof.
  eexists _, _. split; [cbv; reflexivity |].
  destruct (union_spec mt0 ivU1 ivU2 w2 _ _ eq_refl) as (Hs & _ & Hss & _).
  split; [exact Hs | exact (Hss eq_refl)].
Defined.

(** C8: [serialize()] is [serializeDelta({props: properties, includeEndpoints:
    true})]; for an interval with id "abc", label "hl", user properties
    {"color": "red"}, start side [After], end side [Before], and endpoints
    that resolve to the positions 2 and 9 (not the sentinels), the
    serialized form has start 2, start side [After], end 9, end side
    [Before] and properties {"color": "red", "intervalId": "abc",
    "referenceRangeLabels": ["hl"]}. *)
Theorem serialize_spec mt i :
  serialize mt i = serializeDelta mt i (Some (properties i)) true /\
  (id i = "abc"%string -> label i = "hl"%string ->
   properties i = [("color"%string, JStr "red")] ->
   startSide i = After -> endSide i = Before ->
   segEndpointType (getSegment (start i)) = None ->
   segEndpointType (getSegment (end' i)) = None ->
   localReferencePositionToPosition mt (start i) = 2 ->
   localReferencePositionToPosition mt (end' i) = 9 ->
   ser_start (serialize mt i) = Some (PNum 2) /\
   ser_startSide (serialize mt i) = Some After /\
   ser_end (serialize mt i) = Some (PNum 9) /\
   ser_endSide (serialize mt i) = Some Before /\
   ser_properties (serialize mt i) =
     Some [("color"%string, JStr "red"); ("intervalId"%string, JStr "abc");
           ("referenceRangeLabels"%string, JArr [JStr "hl"])]).
Proof.
  split; [reflexivity |].
  intros Hid Hl Hp Hss Hes Hs He Hps Hpe.
  unfold serialize, serializeDelta.
  cbn [ser_start ser_startSide ser_end ser_endSide ser_properties].
  rewrite Hid, Hl, Hp, Hss, Hes, Hs, He, Hps, Hpe.
  repeat split; reflexivity.
Qed.

Lemma C8_witness :
  ser_properties (serialize mt0 ivS) =
  Some [("color"%string, JStr "red"); ("intervalId"%string, JStr "abc");
        ("referenceRangeLabels"%string, JArr [JStr "hl"])].
Proof.
  apply (proj2 (serialize_spec mt0 ivS)); reflexivity.
Defined.

(** C9 (counterexample): the constructor does not remove the reserved keys
    from its [props] argument: constructed with [{"intervalId": "x"}], the
    interval's properties hold "intervalId". *)
Lemma C9_constructor_keeps_reserved_key :
  prop_lookup reservedIntervalIdKey
    (properties (newSequenceInterval "i" "l" ref4 ref4 SlideOnRemoveType
                   (Some [("intervalId"%string, JStr "x")]) Before Before))
  = Some (JStr "x").
Proof. reflexivity. Qed.

(** C9 (amended): the constructor adds [props] as given; it is
    [createSequenceInterval] that neutralises the reserved keys, by passing
    [props] with "intervalId" and "referenceRangeLabels" overridden to
    [undefined], so an interval it creates holds no defined value under
    either reserved key and keeps the other user properties;
    [serializeDelta] writes the reserved keys only into the object it
    returns. *)
Theorem createSequenceInterval_reserved_keys mt label' id' st en ty op fs useNew
  props rb w iv w' :
  (forall p, props = Some p -> NoDup (map fst p)) ->
  createSequenceInterval mt label' id' st en ty op fs useNew props rb w = Ok iv w' ->
  (forall k, k = reservedIntervalIdKey \/ k = reservedRangeLabelsKey ->
   prop_lookup k (properties iv) = None \/
   prop_lookup k (properties iv) = Some JUndefined) /\
  (forall k p, props = Some p -> k <> reservedIntervalIdKey ->
   k <> reservedRangeLabelsKey -> prop_lookup k (properties iv) = prop_lookup k p) /\
  (forall props' inc,
   option_map (prop_lookup reservedIntervalIdKey)
     (ser_properties (serializeDelta mt iv props' inc)) = Some (Some (JStr (id iv))) /\
   option_map (prop_lookup reservedRangeLabelsKey)
     (ser_properties (serializeDelta mt iv props' inc)) =
     Some (Some (JArr [JStr (label iv)]))).
Proof.
  intros Hnd H.
  destruct (createSequenceInterval_inv mt _ _ _ _ _ _ _ _ _ _ _ _ _ H)
    as (sp & ss & ep & es & sr & er & w1 & _ & _ & ->).
  cbn [newSequenceInterval properties].
  assert (Hrl : reservedIntervalIdKey <> reservedRangeLabelsKey) by discriminate.
  split; [| split].
  - intros k Hk. destruct props as [p|]; simpl; [| left; reflexivity].
    right. unfold clearReservedKeys.
    rewrite prop_lookup_addProperties
      by (apply prop_set_nodup, prop_set_nodup, Hnd; reflexivity).
    destruct Hk as [->| ->].
    + rewrite prop_lookup_set_neq by exact Hrl. rewrite prop_lookup_set_eq. reflexivity.
    + rewrite prop_lookup_set_eq. reflexivity.
  - intros k p -> Hk1 Hk2. simpl. unfold clearReservedKeys.
    rewrite prop_lookup_addProperties
      by (apply prop_set_nodup, prop_set_nodup, Hnd; reflexivity).
    rewrite !prop_lookup_set_neq by assumption.
    destruct (prop_lookup k p); reflexivity.
  - intros props' inc. unfold serializeDelta. cbn [ser_properties option_map].
    rewrite prop_lookup_set_neq by exact Hrl.
    rewrite !prop_lookup_set_eq. split; reflexivity.
Qed.

Lemma C9_witness :
  exists iv w',
    createSequenceInterval mt0 "hl" "abc" (Some (SPPos (PNum 2))) (Some (SPPos (PNum 9)))
      SlideOnRemoveType None None false
      (Some [("color"%string, JStr "red"); ("intervalId"%string, JStr "zz")]) None w0
      = Ok iv w' /\
    prop_lookup reservedIntervalIdKey (properties iv) = Some JUndefined.
Proof.
  eexists _, _. split; [cbv; reflexivity |].
  destruct (proj1 (createSequenceInterval_reserved_keys mt0 "hl" "abc"
      (Some (SPPos (PNum 2))) (Some (SPPos (PNum 9))) SlideOnRemoveType None None false
      (Some [("color"%string, JStr "red"); ("intervalId"%string, JStr "zz")]) None w0
      _ _
      (fun p Hp => match Hp in _ = q return NoDup (map fst (match q with Some p => p | None => [] end)) with
                   | eq_refl => ltac:(repeat constructor; simpl; intuition discriminate)
                   end)
      eq_refl) reservedIntervalIdKey (or_introl eq_refl)) as [Hn|Hu].
  - exfalso. vm_compute in Hn. discriminate.
  - exact Hu.
Defined.

(** C10: [a.overlaps(b)] is [compareReferencePositions(a.start, b.end) <= 0
    && compareReferencePositions(a.end, b.start) >= 0]; it depends on the
    four endpoint references only (never on [startSide] or [endSide]), so
    intervals touching at one reference position are reported as
    overlapping whatever their sides; [overlapsPos] instead uses the strict
    tests [endPos > bstart && startPos < bend]. *)
Theorem overlaps_ignores_sides mt a b :
  overlaps mt a b =
    (compareReferencePositions mt (start a) (end' b) <=? 0) &&
    (compareReferencePositions mt (end' a) (start b) >=? 0) /\
  (forall a' b', start a' = start a -> end' a' = end' a ->
   start b' = start b -> end' b' = end' b -> overlaps mt a' b' = overlaps mt a b) /\
  (compareReferencePositions mt (start a) (end' b) <= 0 ->
   compareReferencePositions mt (end' a) (start b) = 0 ->
   overlaps mt a b = true) /\
  (forall bstart bend,
   overlapsPos mt a bstart bend =
     (localReferencePositionToPosition mt (end' a) >? bstart) &&
     (localReferencePositionToPosition mt (start a) <? bend)).
Proof.
  split; [reflexivity | split; [| split]].
  - intros a' b' H1 H2 H3 H4. unfold overlaps. rewrite H1, H2, H3, H4. reflexivity.
  - intros H1 H2. unfold overlaps. rewrite H2.
    apply andb_true_intro. split; [apply Z.leb_le; exact H1 | reflexivity].
  - intros bstart bend. reflexivity.
Qed.

Lemma C10_witness :
  endSide ivT1 = Before /\ startSide ivT2 = After /\ overlaps mt0 ivT1 ivT2 = true.
Proof.
  split; [reflexivity | split; [reflexivity |]].
  apply (proj1 (proj2 (proj2 (overlaps_ignores_sides mt0 ivT1 ivT2)))); vm_compute;
    [discriminate | reflexivity].
Defined.

(** ** Further properties of the code

    Error behaviour of the factories and of [modify], the shape of created
    intervals, serialization round trips, the comparators and [union] on
    shared references, and the position change listeners. *)

(** The reference functions of the concrete merge-tree: the comparison is
    antisymmetric and reflexive, min and max return one of their arguments. *)
Lemma mt0_cmp_antisym x y :
  compareReferencePositions mt0 x y = - compareReferencePositions mt0 y x.
Proof. cbn. unfold cmp. lia. Qed.

Lemma mt0_cmp_refl x : compareReferencePositions mt0 x x = 0.
Proof. cbn. unfold cmp. lia. Qed.

Lemma mt0_min_choice x y :
  minReferencePosition mt0 x y = x \/ minReferencePosition mt0 x y = y.
Proof. cbn. destruct (cmp x y <? 0); auto. Qed.

Lemma mt0_max_choice x y :
  maxReferencePosition mt0 x y = x \/ maxReferencePosition mt0 x y = y.
Proof. cbn. destruct (cmp x y >? 0); auto. Qed.

Lemma createPositionReferenceFromSegoff_throw mt segoff rt op ls fs sp cs rb w e :
  createPositionReferenceFromSegoff mt segoff rt op ls fs sp cs rb w = Throw e ->
  segoff = SegoffNone /\ needsSegmentError rt op ls fs rb = true /\
  e = UsageError "Non-transient references need segment".
Proof.
  unfold createPositionReferenceFromSegoff, createLocalReferencePosition,
    createDetachedLocalReferencePosition, throw.
  destruct segoff; try discriminate.
  destruct (needsSegmentError rt op ls fs rb); intros H; inversion H; auto.
Qed.

Lemma createPositionReference_throw mt pos rt op fs ls sp ex useNew rb w e :
  createPositionReference mt pos rt op fs ls sp ex useNew rb w = Throw e ->
  (op <> None /\ Z.land rt ReferenceType.SlideOnRemove = 0 /\ e = AssertionError 0x2f5) \/
  (op = None /\ Z.land rt ReferenceType.SlideOnRemove <> 0 /\ fs <> Some true /\
   e = AssertionError 0x2f6) \/
  (op = None /\ (exists n, pos = PNum n) /\ needsSegmentError rt op ls fs rb = true /\
   e = UsageError "Non-transient references need segment").
Proof.
  unfold createPositionReference, bind, assert, ret, throw.
  destruct (Z.land rt ReferenceType.SlideOnRemove =? 0) eqn:E;
    [apply Z.eqb_eq in E | apply Z.eqb_neq in E];
  destruct op as [o|]; cbn [negb orb].
  - intros H; inversion H; subst. left. repeat split; [discriminate | assumption].
  - destruct pos as [n|ep]; intros H;
      apply createPositionReferenceFromSegoff_throw in H as (Hs & Hn & He);
      [right; right; eauto | discriminate].
  - destruct pos as [n|ep]; intros H;
      apply createPositionReferenceFromSegoff_throw in H as (Hs & Hn & He);
      discriminate.
  - destruct (truthy_bool fs) eqn:Efs.
    + destruct pos as [n|ep]; intros H;
        apply createPositionReferenceFromSegoff_throw in H as (Hs & Hn & He);
        [right; right; eauto | discriminate].
    + intros H; inversion H; subst. right; left. repeat split; auto.
      intros ->. discriminate.
Qed.

(** When none of the failure conditions holds, a reference is returned. *)
Lemma createPositionReference_ok mt pos rt op fs ls sp ex useNew rb w :
  (op <> None -> Z.land rt ReferenceType.SlideOnRemove <> 0) ->
  (op = None -> Z.land rt ReferenceType.SlideOnRemove = 0 \/ fs = Some true) ->
  needsSegmentError rt op ls fs rb = false ->
  exists r w', createPositionReference mt pos rt op fs ls sp ex useNew rb w = Ok r w'.
Proof.
  intros H1 H2 H3.
  destruct (createPositionReference mt pos rt op fs ls sp ex useNew rb w) as [r w'|e] eqn:E;
    [eauto|].
  apply createPositionReference_throw in E as [(Ho & Hl & _)|[(Ho & Hl & Hf & _)|(_ & _ & Hn & _)]].
  - exfalso. exact (H1 Ho Hl).
  - exfalso. destruct (H2 Ho); auto.
  - congruence.
Qed.

(** [createPositionReference] fails only in three ways: with an op, the
    assertion 0x2f5 when the reference type lacks [SlideOnRemove]; without
    one, the assertion 0x2f6 when it has [SlideOnRemove] and [fromSnapshot]
    is not true, or the UsageError "Non-transient references need segment".
    With an op and [SlideOnRemove] it always returns a reference. *)
Theorem createPositionReference_errors mt pos rt op fs ls sp ex useNew rb w :
  (forall e, createPositionReference mt pos rt op fs ls sp ex useNew rb w = Throw e ->
   (op <> None /\ Z.land rt ReferenceType.SlideOnRemove = 0 /\ e = AssertionError 0x2f5) \/
   (op = None /\ Z.land rt ReferenceType.SlideOnRemove <> 0 /\ fs <> Some true /\
    e = AssertionError 0x2f6) \/
   (op = None /\ e = UsageError "Non-transient references need segment")) /\
  (op <> None -> Z.land rt ReferenceType.SlideOnRemove = 0 ->
   createPositionReference mt pos rt op fs ls sp ex useNew rb w = Throw (AssertionError 0x2f5)) /\
  (op <> None -> Z.land rt ReferenceType.SlideOnRemove <> 0 ->
   exists r w', createPositionReference mt pos rt op fs ls sp ex useNew rb w = Ok r w') /\
  (op = None -> Z.land rt ReferenceType.SlideOnRemove <> 0 -> fs <> Some true ->
   createPositionReference mt pos rt op fs ls sp ex useNew rb w = Throw (AssertionError 0x2f6)).
Proof.
  split; [| split; [| split]].
  - intros e H.
    apply createPositionReference_throw in H as [H|[H|(Ho & _ & _ & He)]]; auto.
  - intros Ho Hl. destruct op as [o|]; [| congruence].
    unfold createPositionReference, bind, assert, throw.
    rewrite Hl. reflexivity.
  - intros Ho Hl. apply createPositionReference_ok; auto.
    + intros Hn. congruence.
    + unfold needsSegmentError. destruct op; [reflexivity | congruence].
  - intros -> Hl Hf.
    unfold createPositionReference, bind, assert, throw.
    destruct (Z.eqb_spec (Z.land rt ReferenceType.SlideOnRemove) 0); [congruence|].
    destruct fs as [[|]|]; [congruence | reflexivity | reflexivity].
Qed.

Lemma createPositionReference_errors_witness :
  createPositionReference mt0 (PNum 3) ReferenceType.RangeBegin (Some msg0) None None
    None false false None w0 = Throw (AssertionError 0x2f5).
Proof.
  apply (proj1 (proj2 (createPositionReference_errors mt0 (PNum 3)
    ReferenceType.RangeBegin (Some msg0) None None None false false None w0)));
    [discriminate | reflexivity].
Defined.

(** A reference created at ["start"] or ["end"] sits at offset 0 of the
    merge-tree's special endpoint segment, with the requested reference
    type, sliding preference and [canSlideToEndpoint = exclusive]; it is
    the next fresh reference and [uuid()] is not called. The only failures
    are the two assertions on [SlideOnRemove]. *)
Theorem createPositionReference_sentinel mt ep rt op fs ls sp ex useNew rb w :
  (forall r w',
   createPositionReference mt (PEndpoint ep) rt op fs ls sp ex useNew rb w = Ok r w' ->
   anchor r = AtSegment (endpointSegment mt ep) 0 /\ refType r = rt /\
   slidingPreference r = sp /\ canSlideToEndpoint r = Some ex /\
   lref_uid r = next_lref w /\ next_lref w' = S (next_lref w) /\
   next_uuid w' = next_uuid w) /\
  (forall e,
   createPositionReference mt (PEndpoint ep) rt op fs ls sp ex useNew rb w = Throw e ->
   e = AssertionError 0x2f5 \/ e = AssertionError 0x2f6).
Proof.
  unfold createPositionReference, bind, assert, ret, throw,
    createPositionReferenceFromSegoff, createLocalReferencePosition.
  destruct op as [o|], (Z.land rt ReferenceType.SlideOnRemove =? 0), (truthy_bool fs);
    cbn [negb orb]; split; intros; try discriminate;
    match goal with H : _ = _ |- _ => inversion H; subst end;
    cbn; auto 10.
Qed.

Lemma createPositionReference_sentinel_witness :
  exists r w',
    createPositionReference mt0 (PEndpoint EEnd)
      (Z.lor ReferenceType.RangeEnd ReferenceType.SlideOnRemove) None (Some true) None
      (Some FORWARD) true false None w0 = Ok r w' /\
    anchor r = AtSegment (endpointSegment mt0 EEnd) 0.
Proof.
  eexists _, _. split; [cbv; reflexivity |].
  exact (proj1 (proj1 (createPositionReference_sentinel mt0 EEnd
    (Z.lor ReferenceType.RangeEnd ReferenceType.SlideOnRemove) None (Some true) None
    (Some FORWARD) true false None w0) _ _ eq_refl)).
Defined.

Lemma createSequenceInterval_unfold mt label id st en ty op fs useNew props rb :
  exists sp ss ep es,
    (st = None -> sp = PEndpoint EStart /\ ss = Before) /\
    (en = None -> ep = PEndpoint EEnd /\ es = Before) /\
    forall w,
    createSequenceInterval mt label id st en ty op fs useNew props rb w =
    (let stk := computeStickinessFromSide mt (Some sp) ss (Some ep) es in
     let spref := startReferenceSlidingPreference mt stk in
     let epref := endReferenceSlidingPreference mt stk in
     startLref <- createPositionReference mt sp (fst (rangeRefTypes ty op fs)) op fs None
                    (Some spref) (SlidingPreference_eqb spref BACKWARD) useNew rb ;;
     endLref <- createPositionReference mt ep (snd (rangeRefTypes ty op fs)) op fs None
                  (Some epref) (SlidingPreference_eqb epref FORWARD) useNew rb ;;
     ret (newSequenceInterval id label
            (lref_addProperties startLref [(reservedRangeLabelsKey, JArr [JStr label])])
            (lref_addProperties endLref [(reservedRangeLabelsKey, JArr [JStr label])])
            ty (option_map clearReservedKeys props) ss es)) w.
Proof.
  destruct st as [[p|p s]|], en as [[q|q t]|]; eexists _, _, _, _;
    (split; [intros H; try discriminate; split; reflexivity |]);
    (split; [intros H; try discriminate; split; reflexivity |]);
    intros w; unfold createSequenceInterval; cbn [endpointPosAndSide placePosAndSide opt_default];
    destruct (rangeRefTypes ty op fs); reflexivity.
Qed.

Lemma rangeRefTypes_flags ty op fs rt :
  rt = fst (rangeRefTypes ty op fs) \/ rt = snd (rangeRefTypes ty op fs) ->
  (Z.land rt ReferenceType.SlideOnRemove = 0 <->
   ty = Transient \/ (op = None /\ fs <> Some true)) /\
  (refTypeIncludesFlag rt ReferenceType.Transient = true <-> ty = Transient).
Proof.
  intros [-> | ->]; destruct ty, op, fs as [[|]|]; vm_compute;
    (split; split; [intros H | intros H | intros H | intros H]);
    try solve [intuition congruence]; try discriminate; try reflexivity;
    try (destruct H as [H|[H1 H2]]; congruence).
Qed.

Lemma rangeRefTypes_throw ty op fs rb rt pos e :
  rt = fst (rangeRefTypes ty op fs) \/ rt = snd (rangeRefTypes ty op fs) ->
  (op <> None /\ Z.land rt ReferenceType.SlideOnRemove = 0 /\ e = AssertionError 0x2f5) \/
  (op = None /\ Z.land rt ReferenceType.SlideOnRemove <> 0 /\ fs <> Some true /\
   e = AssertionError 0x2f6) \/
  (op = None /\ (exists n, pos = PNum n) /\ needsSegmentError rt op None fs rb = true /\
   e = UsageError "Non-transient references need segment") ->
  (ty = Transient /\ op <> None /\ e = AssertionError 0x2f5) \/
  (ty <> Transient /\ op = None /\ fs <> Some true /\ rb <> Some true /\
   e = UsageError "Non-transient references need segment").
Proof.
  intros Hrt H. destruct (rangeRefTypes_flags ty op fs rt Hrt) as [F1 F2].
  destruct H as [(Ho & Hl & He)|[(Ho & Hl & Hf & He)|(Ho & _ & Hn & He)]].
  - left. apply F1 in Hl. destruct Hl as [Ht|[Ho' _]]; [auto | congruence].
  - exfalso. apply Hl, F1. right. auto.
  - right. subst op. unfold needsSegmentError in Hn.
    destruct fs as [[|]|], rb as [[|]|]; cbn [is_defined truthy_num truthy_bool negb andb] in Hn;
      rewrite ?andb_false_r in Hn; try discriminate;
    (destruct (refTypeIncludesFlag rt ReferenceType.Transient) eqn:Et; [discriminate|]);
    (assert (ty <> Transient) by (intros Ht; apply F2 in Ht; congruence));
    repeat split; auto; discriminate.
Qed.

Lemma createSequenceInterval_ok mt label id st en ty op fs useNew props rb w :
  (ty <> Transient /\ op <> None) \/
  (op = None /\ (ty = Transient \/ fs = Some true \/ rb = Some true)) ->
  exists iv w', createSequenceInterval mt label id st en ty op fs useNew props rb w = Ok iv w'.
Proof.
  intros Hc.
  destruct (createSequenceInterval_unfold mt label id st en ty op fs useNew props rb)
    as (sp & ss & ep & es & _ & _ & Heq).
  rewrite Heq. cbv zeta.
  assert (Hn : forall rt, (rt = fst (rangeRefTypes ty op fs) \/ rt = snd (rangeRefTypes ty op fs)) ->
            forall pos sp' ex' w0, exists r w1,
            createPositionReference mt pos rt op fs None sp' ex' useNew rb w0 = Ok r w1).
  { intros rt Hrt pos sp' ex' w0.
    destruct (rangeRefTypes_flags ty op fs rt Hrt) as [F1 F2].
    apply createPositionReference_ok.
    - intros Ho Hl. apply F1 in Hl. destruct Hc as [[Ht Ho']|[Ho' _]];
        destruct Hl as [Ht'|[Ho'' _]]; congruence.
    - intros Ho. destruct (Z.eqb_spec (Z.land rt ReferenceType.SlideOnRemove) 0) as [|Hl];
        [left; assumption | right].
      destruct fs as [[|]|]; [reflexivity | |]; exfalso; apply Hl, F1; right; split;
        [assumption | discriminate | assumption | discriminate].
    - unfold needsSegmentError.
      destruct Hc as [[Ht Ho]|[Ho [Ht|[Hf|Hr]]]].
      + destruct op; [reflexivity | congruence].
      + subst op. apply F2 in Ht. rewrite Ht.
        destruct (truthy_bool fs), (truthy_bool rb); reflexivity.
      + subst op fs. reflexivity.
      + subst op rb.
        destruct (truthy_bool fs), (refTypeIncludesFlag rt ReferenceType.Transient);
          reflexivity. }
  unfold bind at 1.
  match goal with |- context [createPositionReference mt sp ?b op fs None ?g ?h useNew rb w] =>
    destruct (Hn b (or_introl eq_refl) sp g h w) as (r1 & w1 & E1); rewrite E1 end.
  unfold bind.
  match goal with |- context [createPositionReference mt ep ?b op fs None ?g ?h useNew rb w1] =>
    destruct (Hn b (or_intror eq_refl) ep g h w1) as (r2 & w2 & E2); rewrite E2 end.
  eexists _, _. reflexivity.
Qed.

(** [createSequenceInterval] fails only with assertion 0x2f5 for a transient
    interval given an op (its references are [Transient] alone, without
    [SlideOnRemove]), or with "Non-transient references need segment" for
    a local, non-snapshot, non-rollback, non-transient interval. In every
    other case it returns an interval. *)
Theorem createSequenceInterval_errors mt label id st en ty op fs useNew props rb w :
  (forall e, createSequenceInterval mt label id st en ty op fs useNew props rb w = Throw e ->
   (ty = Transient /\ op <> None /\ e = AssertionError 0x2f5) \/
   (ty <> Transient /\ op = None /\ fs <> Some true /\ rb <> Some true /\
    e = UsageError "Non-transient references need segment")) /\
  (ty = Transient -> op <> None ->
   createSequenceInterval mt label id st en ty op fs useNew props rb w =
   Throw (AssertionError 0x2f5)) /\
  ((ty <> Transient /\ op <> None) \/
   (op = None /\ (ty = Transient \/ fs = Some true \/ rb = Some true)) ->
   exists iv w', createSequenceInterval mt label id st en ty op fs useNew props rb w = Ok iv w').
Proof.
  destruct (createSequenceInterval_unfold mt label id st en ty op fs useNew props rb)
    as (sp & ss & ep & es & _ & _ & Heq).
  rewrite Heq. cbv zeta.
  pose proof (rangeRefTypes_flags ty op fs _ (or_introl eq_refl)) as [Fs1 Fs2].
  pose proof (rangeRefTypes_flags ty op fs _ (or_intror eq_refl)) as [Fe1 Fe2].
  split; [| split].
  - intros e. unfold bind at 1.
    match goal with |- context [createPositionReference ?a ?b ?c ?d ?f ?g ?h ?i ?j ?k w] =>
      destruct (createPositionReference a b c d f g h i j k w) as [r1 w1|e1] eqn:E1 end.
    + unfold bind.
      match goal with |- context [createPositionReference ?a ?b ?c ?d ?f ?g ?h ?i ?j ?k w1] =>
        destruct (createPositionReference a b c d f g h i j k w1) as [r2 w2|e2] eqn:E2 end;
        [discriminate|].
      intros H; inversion H; subst.
      apply createPositionReference_throw in E2.
      exact (rangeRefTypes_throw ty op fs rb _ _ _ (or_intror eq_refl) E2).
    + intros H; inversion H; subst.
      apply createPositionReference_throw in E1.
      exact (rangeRefTypes_throw ty op fs rb _ _ _ (or_introl eq_refl) E1).
  - intros Ht Ho. destruct op as [o|]; [| congruence].
    assert (Hl : Z.land (fst (rangeRefTypes ty (Some o) fs)) ReferenceType.SlideOnRemove = 0)
      by (apply Fs1; left; exact Ht).
    unfold bind at 1, createPositionReference at 1, bind at 1, assert at 1.
    rewrite Hl. reflexivity.
  - rewrite <- Heq. apply createSequenceInterval_ok.
Qed.

Lemma createSequenceInterval_errors_witness :
  createSequenceInterval mt0 "x" "t" None None Transient (Some msg0) None false None None
    w0 = Throw (AssertionError 0x2f5).
Proof.
  apply (proj1 (proj2 (createSequenceInterval_errors mt0 "x" "t" None None Transient
    (Some msg0) None false None None w0))); [reflexivity | discriminate].
Defined.

(** A created reference is a new object, with no properties yet. *)
Lemma createPositionReference_fresh mt pos rt op fs ls sp ex useNew rb w r w' :
  createPositionReference mt pos rt op fs ls sp ex useNew rb w = Ok r w' ->
  lref_uid r = next_lref w /\ lref_properties r = None /\
  w' = {| next_lref := S (next_lref w); next_uuid := next_uuid w |}.
Proof.
  unfold createPositionReference, bind, assert, ret, throw,
    createPositionReferenceFromSegoff, createLocalReferencePosition,
    createDetachedLocalReferencePosition.
  destruct op as [o|], (Z.land rt ReferenceType.SlideOnRemove =? 0), (truthy_bool fs);
    cbn [negb orb]; try discriminate;
  match goal with |- context [match ?s with SegoffAt _ _ => _ | _ => _ end] => destruct s end;
  try destruct (needsSegmentError rt _ ls fs rb);
  intros H; inversion H; subst; auto.
Qed.

Lemma createSequenceInterval_shape mt label id st en ty op fs useNew props rb w iv w' :
  createSequenceInterval mt label id st en ty op fs useNew props rb w = Ok iv w' ->
  exists sp ss ep es sr er w1,
    (st = None -> sp = PEndpoint EStart /\ ss = Before) /\
    (en = None -> ep = PEndpoint EEnd /\ es = Before) /\
    createPositionReference mt sp (fst (rangeRefTypes ty op fs)) op fs None
      (Some (startReferenceSlidingPreference mt
               (computeStickinessFromSide mt (Some sp) ss (Some ep) es)))
      (SlidingPreference_eqb (startReferenceSlidingPreference mt
               (computeStickinessFromSide mt (Some sp) ss (Some ep) es)) BACKWARD)
      useNew rb w = Ok sr w1 /\
    createPositionReference mt ep (snd (rangeRefTypes ty op fs)) op fs None
      (Some (endReferenceSlidingPreference mt
               (computeStickinessFromSide mt (Some sp) ss (Some ep) es)))
      (SlidingPreference_eqb (endReferenceSlidingPreference mt
               (computeStickinessFromSide mt (Some sp) ss (Some ep) es)) FORWARD)
      useNew rb w1 = Ok er w' /\
    iv = newSequenceInterval id label
           (lref_addProperties sr [(reservedRangeLabelsKey, JArr [JStr label])])
           (lref_addProperties er [(reservedRangeLabelsKey, JArr [JStr label])])
           ty (option_map clearReservedKeys props) ss es.
Proof.
  destruct (createSequenceInterval_unfold mt label id st en ty op fs useNew props rb)
    as (sp & ss & ep & es & Hs & He & Heq).
  rewrite Heq. cbv zeta. unfold bind at 1.
  match goal with |- context [createPositionReference ?a ?b ?c ?d ?f ?g ?h ?i ?j ?k w] =>
    destruct (createPositionReference a b c d f g h i j k w) as [sr w1|e1] eqn:E1 end;
    [| discriminate].
  unfold bind.
  match goal with |- context [createPositionReference ?a ?b ?c ?d ?f ?g ?h ?i ?j ?k w1] =>
    destruct (createPositionReference a b c d f g h i j k w1) as [er w2|e2] eqn:E2 end;
    [| discriminate].
  unfold ret. intros H; inversion H; subst.
  exists sp, ss, ep, es, sr, er, w1. auto 6.
Qed.

(** The endpoints of a created interval are two fresh references, the start
    created before the end, so they are never the same object; exactly two
    references are created and [uuid()] is not called. *)
Theorem createSequenceInterval_fresh_endpoints mt label id st en ty op fs useNew props rb
  w iv w' :
  createSequenceInterval mt label id st en ty op fs useNew props rb w = Ok iv w' ->
  lref_uid (start iv) = next_lref w /\ lref_uid (end' iv) = S (next_lref w) /\
  lref_same (start iv) (end' iv) = false /\
  next_lref w' = S (S (next_lref w)) /\ next_uuid w' = next_uuid w.
Proof.
  intros H.
  destruct (createSequenceInterval_shape _ _ _ _ _ _ _ _ _ _ _ _ _ _ H)
    as (sp & ss & ep & es & sr & er & w1 & _ & _ & E1 & E2 & ->).
  apply createPositionReference_fresh in E1 as (U1 & _ & ->).
  apply createPositionReference_fresh in E2 as (U2 & _ & ->).
  cbn in *. rewrite U1, U2. unfold lref_same. cbn.
  repeat split. apply Nat.eqb_neq. lia.
Qed.

Lemma createSequenceInterval_fresh_endpoints_witness :
  exists iv w',
    createSequenceInterval mt0 "hl" "abc" (Some (SPInterior (PNum 2) After))
      (Some (SPInterior (PNum 9) Before)) SlideOnRemoveType None (Some true) false
      None None w0 = Ok iv w' /\
    lref_same (start iv) (end' iv) = false.
Proof.
  eexists _, _. split; [cbv; reflexivity |].
  exact (proj1 (proj2 (proj2 (createSequenceInterval_fresh_endpoints mt0 "hl" "abc"
    (Some (SPInterior (PNum 2) After)) (Some (SPInterior (PNum 9) Before))
    SlideOnRemoveType None (Some true) false None None w0 _ _ eq_refl)))).
Defined.

(** A created interval has the given id, label and interval type, and each
    of its endpoints carries exactly the property [referenceRangeLabels =
    [label]]. *)
Theorem createSequenceInterval_labelled_endpoints mt label' id' st en ty op fs useNew props
  rb w iv w' :
  createSequenceInterval mt label' id' st en ty op fs useNew props rb w = Ok iv w' ->
  getIntervalId iv = id' /\ label iv = label' /\ intervalType iv = ty /\
  lref_properties (start iv) = Some [(reservedRangeLabelsKey, JArr [JStr label'])] /\
  lref_properties (end' iv) = Some [(reservedRangeLabelsKey, JArr [JStr label'])].
Proof.
  intros H.
  destruct (createSequenceInterval_shape _ _ _ _ _ _ _ _ _ _ _ _ _ _ H)
    as (sp & ss & ep & es & sr & er & w1 & _ & _ & E1 & E2 & ->).
  apply createPositionReference_fresh in E1 as (_ & P1 & _).
  apply createPositionReference_fresh in E2 as (_ & P2 & _).
  cbn. rewrite P1, P2. repeat split.
Qed.

Lemma createSequenceInterval_labelled_endpoints_witness :
  exists iv w',
    createSequenceInterval mt0 "hl" "abc" (Some (SPInterior (PNum 2) After))
      (Some (SPInterior (PNum 9) Before)) SlideOnRemoveType None (Some true) false
      None None w0 = Ok iv w' /\
    lref_properties (end' iv) = Some [(reservedRangeLabelsKey, JArr [JStr "hl"])].
Proof.
  eexists _, _. split; [cbv; reflexivity |].
  exact (proj2 (proj2 (proj2 (proj2 (createSequenceInterval_labelled_endpoints mt0 "hl"
    "abc" (Some (SPInterior (PNum 2) After)) (Some (SPInterior (PNum 9) Before))
    SlideOnRemoveType None (Some true) false None None w0 _ _ eq_refl))))).
Defined.

(** An interval created without places spans the whole sequence: its
    endpoints sit at offset 0 of the special start and end segments, both
    with side [Before], and when those segments are marked as endpoints it
    serializes with [start = "start"] and [end = "end"]. *)
Theorem createSequenceInterval_default_endpoints mt label' id' ty op fs useNew props rb
  w iv w' :
  createSequenceInterval mt label' id' None None ty op fs useNew props rb w = Ok iv w' ->
  anchor (start iv) = AtSegment (endpointSegment mt EStart) 0 /\
  anchor (end' iv) = AtSegment (endpointSegment mt EEnd) 0 /\
  startSide iv = Before /\ endSide iv = Before /\
  (endpointType (endpointSegment mt EStart) = Some EStart ->
   endpointType (endpointSegment mt EEnd) = Some EEnd ->
   ser_start (serialize mt iv) = Some (PEndpoint EStart) /\
   ser_end (serialize mt iv) = Some (PEndpoint EEnd)).
Proof.
  intros H.
  destruct (createSequenceInterval_shape _ _ _ _ _ _ _ _ _ _ _ _ _ _ H)
    as (sp & ss & ep & es & sr & er & w1 & Hs & He & E1 & E2 & ->).
  destruct (Hs eq_refl) as [-> ->]. destruct (He eq_refl) as [-> ->].
  apply createPositionReference_sentinel in E1 as (A1 & _).
  apply createPositionReference_sentinel in E2 as (A2 & _).
  cbn [newSequenceInterval start end' startSide endSide].
  unfold lref_addProperties. cbn [anchor]. rewrite A1, A2.
  do 4 (split; [reflexivity |]).
  intros Hs' He'. unfold serialize, serializeDelta, getSegment.
  cbn [ser_start ser_end start end' newSequenceInterval lref_addProperties anchor].
  rewrite ?A1, ?A2. cbn [segEndpointType]. rewrite Hs', He'. split; reflexivity.
Qed.

Lemma createSequenceInterval_default_endpoints_witness :
  exists iv w',
    createSequenceInterval mt0 "x" "d" None None Simple None None false None None w0
      = Ok iv w' /\
    ser_start (serialize mt0 iv) = Some (PEndpoint EStart) /\
    ser_end (serialize mt0 iv) = Some (PEndpoint EEnd).
Proof.
  eexists _, _. split; [cbv; reflexivity |].
  exact (proj2 (proj2 (proj2 (proj2 (createSequenceInterval_default_endpoints mt0 "x" "d"
    Simple None None false None None w0 _ _ eq_refl)))) eq_refl eq_refl).
Defined.

(** [createTransientInterval] never fails: it takes the next [uuid()] as
    the id, the label "transient", the interval type [Transient], reference
    type [Transient] on both endpoints and no properties. *)
Theorem createTransientInterval_spec mt st en w :
  exists iv w', createTransientInterval mt st en w = Ok iv w' /\
    getIntervalId iv = uuid mt (next_uuid w) /\ label iv = "transient"%string /\
    intervalType iv = Transient /\
    refType (start iv) = ReferenceType.Transient /\
    refType (end' iv) = ReferenceType.Transient /\
    properties iv = [] /\ next_uuid w' = S (next_uuid w).
Proof.
  unfold createTransientInterval, bind at 1, gen_uuid.
  destruct (createSequenceInterval_ok mt "transient" (uuid mt (next_uuid w)) st en Transient
              None None false None None
              {| next_lref := next_lref w; next_uuid := S (next_uuid w) |})
    as (iv & w' & E); [right; split; [reflexivity | left; reflexivity] |].
  exists iv, w'. split; [exact E |].
  destruct (createSequenceInterval_shape _ _ _ _ _ _ _ _ _ _ _ _ _ _ E)
    as (sp & ss & ep & es & sr & er & w1 & _ & _ & E1 & E2 & Hiv).
  pose proof (createPositionReference_refType _ _ _ _ _ _ _ _ _ _ _ _ _ E1) as R1.
  pose proof (createPositionReference_refType _ _ _ _ _ _ _ _ _ _ _ _ _ E2) as R2.
  apply createPositionReference_fresh in E1 as (_ & _ & ->).
  apply createPositionReference_fresh in E2 as (_ & _ & ->).
  subst iv. cbn in *. rewrite R1, R2. repeat split.
Qed.

Lemma bind_Throw {A B} (m : M A) (k : A -> M B) w e :
  bind m k w = Throw e -> m w = Throw e \/ exists a w1, m w = Ok a w1 /\ k a w1 = Throw e.
Proof.
  unfold bind. destruct (m w) as [a w1|e']; intros H; [right; eauto | left].
  inversion H. reflexivity.
Qed.

Lemma createPositionReference_unflagged mt pos rt o fs ls sp ex useNew rb w :
  Z.land rt ReferenceType.SlideOnRemove = 0 ->
  createPositionReference mt pos rt (Some o) fs ls sp ex useNew rb w =
  Throw (AssertionError 0x2f5).
Proof.
  intros Hl. unfold createPositionReference, bind, assert, throw. rewrite Hl. reflexivity.
Qed.

Lemma placePosAndSide_none p : fst (placePosAndSide p) = None <-> p = None.
Proof. destruct p as [[q|q s]|]; cbn; split; congruence. Qed.

(** [getRefType] never leaves [SlideOnRemove] without an op. *)
Lemma modifyRefType_local_land b :
  Z.land (modifyRefType None b) ReferenceType.SlideOnRemove = 0.
Proof.
  pose proof (proj1 (modifyRefType_local b)) as H.
  unfold refTypeIncludesFlag in H. apply negb_false_iff, Z.eqb_eq in H. exact H.
Qed.

(** [modify] given no new places creates nothing and returns an interval
    equal to the original one. *)
Theorem modify_no_places mt i label' op localSeq useNew w :
  modify mt i label' None None op localSeq useNew w = Ok i w.
Proof. destruct i. reflexivity. Qed.

(** [modify] keeps the id, the label, the interval type and the properties
    of the interval (its [label] argument is not used); each side comes
    from the new place when one is given ([Before] for a bare position) and
    is kept otherwise. *)
Theorem modify_keeps_identity mt i label' st en op localSeq useNew w i' w' :
  modify mt i label' st en op localSeq useNew w = Ok i' w' ->
  getIntervalId i' = getIntervalId i /\ label i' = label i /\
  intervalType i' = intervalType i /\ properties i' = properties i /\
  startSide i' = match st with
                 | Some (SPInterior _ s) => s | Some (SPPos _) => Before
                 | None => startSide i end /\
  endSide i' = match en with
               | Some (SPInterior _ s) => s | Some (SPPos _) => Before
               | None => endSide i end.
Proof.
  intros H. unfold modify in H.
  destruct st as [[ps|ps ss]|], en as [[pe|pe se]|];
    cbn [endpointPosAndSide placePosAndSide] in H; decompose_ok;
    cbn; auto 7.
Qed.

Lemma modify_keeps_identity_witness :
  exists i' w',
    modify mt0 ivA "other" (Some (SPInterior (PNum 1) After)) None None None false w2
      = Ok i' w' /\
    label i' = "x"%string /\ startSide i' = After.
Proof.
  eexists _, _. split; [cbv; reflexivity |].
  destruct (modify_keeps_identity mt0 ivA "other" (Some (SPInterior (PNum 1) After)) None
    None None false w2 _ _ eq_refl) as (_ & Hl & _ & _ & Hs & _).
  split; [exact Hl | exact Hs].
Defined.

(** Steps over a [createPositionReference] call of [modify] made with an
    op: it fails when the reference type lacks [SlideOnRemove] and returns
    a reference otherwise ([Hok]). *)
Ltac step_cpr Hok o :=
  match goal with
  | |- context [createPositionReference ?a ?pos ?b (Some o) None ?ls ?sp ?ex ?useN None ?w0] =>
      first
        [ rewrite (createPositionReference_unflagged a pos b o None ls sp ex useN None w0)
            by assumption
        | let r := fresh "r" in let w1 := fresh "w" in let E := fresh "E" in
          destruct (Hok o pos b ls sp ex w0 ltac:(assumption)) as (r & w1 & E);
          rewrite E ]
  end.

(** [modify] fails only with assertion 0x2f5 when an op is given, or with
    "Non-transient references need segment" when none is. With an op it
    fails exactly when an endpoint it replaces lacks [SlideOnRemove]. *)
Theorem modify_errors mt i label' st en op localSeq useNew w :
  (forall e, modify mt i label' st en op localSeq useNew w = Throw e ->
   (op <> None /\ e = AssertionError 0x2f5) \/
   (op = None /\ e = UsageError "Non-transient references need segment")) /\
  (op <> None ->
   (st <> None /\ Z.land (refType (start i)) ReferenceType.SlideOnRemove = 0) \/
   (en <> None /\ Z.land (refType (end' i)) ReferenceType.SlideOnRemove = 0) ->
   modify mt i label' st en op localSeq useNew w = Throw (AssertionError 0x2f5)) /\
  (op <> None ->
   (st = None \/ Z.land (refType (start i)) ReferenceType.SlideOnRemove <> 0) ->
   (en = None \/ Z.land (refType (end' i)) ReferenceType.SlideOnRemove <> 0) ->
   exists i' w', modify mt i label' st en op localSeq useNew w = Ok i' w').
Proof.
  assert (Hcls : forall pos b ls sp ex w0 e,
    createPositionReference mt pos (modifyRefType op b) op None ls sp ex useNew None w0
      = Throw e ->
    (op <> None /\ e = AssertionError 0x2f5) \/
    (op = None /\ e = UsageError "Non-transient references need segment")).
  { intros pos b ls sp ex w0 e H.
    apply createPositionReference_throw in H
      as [(Ho & _ & He)|[(Ho & Hl & _)|(Ho & _ & _ & He)]]; auto.
    exfalso. subst op. apply Hl, modifyRefType_local_land. }
  assert (Hok : forall o pos b ls sp ex w0,
    Z.land b ReferenceType.SlideOnRemove <> 0 ->
    exists r w1, createPositionReference mt pos b (Some o) None ls sp ex
                   useNew None w0 = Ok r w1).
  { intros o pos b ls sp ex w0 Hb. apply createPositionReference_ok.
    - intros _. exact Hb.
    - discriminate.
    - reflexivity. }
  unfold modify.
  split; [| split].
  - destruct st as [[ps|ps ss]|], en as [[pe|pe se]|];
      cbn [endpointPosAndSide placePosAndSide];
      intros e H;
      repeat match goal with
      | H : bind _ _ _ = Throw _ |- _ =>
          apply bind_Throw in H as [H|(?a & ?w & ?E & H)]
      | H : ret _ _ = Throw _ |- _ => discriminate H
      | H : createPositionReference _ _ _ _ _ _ _ _ _ _ _ = Throw _ |- _ =>
          exact (Hcls _ _ _ _ _ _ _ H)
      end.
  - intros Ho Hc. destruct op as [o|]; [| congruence].
    destruct (Z.eqb_spec (Z.land (refType (start i)) ReferenceType.SlideOnRemove) 0) as [Ls|Ls],
      (Z.eqb_spec (Z.land (refType (end' i)) ReferenceType.SlideOnRemove) 0) as [Le|Le];
    destruct st as [[ps|ps ss]|], en as [[pe|pe se]|];
      cbn [endpointPosAndSide placePosAndSide];
      destruct Hc as [[Hn Hl]|[Hn Hl]]; try congruence;
      unfold bind, ret; cbn [modifyRefType]; repeat step_cpr Hok o; reflexivity.
  - intros Ho Hs He. destruct op as [o|]; [| congruence].
    destruct st as [[ps|ps ss]|], en as [[pe|pe se]|];
      cbn [endpointPosAndSide placePosAndSide];
      destruct Hs as [Hs|Ls]; try congruence; destruct He as [He|Le]; try congruence;
      unfold bind, ret; cbn [modifyRefType]; repeat step_cpr Hok o; eexists _, _; reflexivity.
Qed.

Lemma modify_errors_witness :
  modify mt0 ivStay "x" (Some (SPPos (PNum 2))) None (Some msg0) None false w2
    = Throw (AssertionError 0x2f5).
Proof.
  apply (proj1 (proj2 (modify_errors mt0 ivStay "x" (Some (SPPos (PNum 2))) None
    (Some msg0) None false w2))).
  - discriminate.
  - left. split; [discriminate | reflexivity].
Defined.

Lemma prop_set_absent k v ps :
  ~ In k (map fst ps) -> prop_set k v ps = ps ++ [(k, v)].
Proof.
  induction ps as [|[k' v'] ps IH]; intros Hn; [reflexivity |].
  cbn in *. destruct (String.eqb_spec k k') as [->|Hne].
  - exfalso. apply Hn. left. reflexivity.
  - rewrite IH; [reflexivity | tauto].
Qed.

Lemma addProperties_app acc ps :
  NoDup (map fst ps) ->
  (forall k, In k (map fst ps) -> ~ In k (map fst acc)) ->
  addProperties acc ps = acc ++ ps.
Proof.
  revert acc. induction ps as [|[k v] ps IH]; intros acc Hnd Hdis.
  - rewrite app_nil_r. reflexivity.
  - unfold addProperties. cbn [fold_left fst snd].
    inversion Hnd as [|? ? Hk Hnd']; subst.
    rewrite prop_set_absent by (apply Hdis; left; reflexivity).
    change (addProperties (acc ++ [(k, v)]) ps = acc ++ (k, v) :: ps).
    rewrite IH; [rewrite <- app_assoc; reflexivity | exact Hnd' |].
    intros k' Hin. rewrite map_app, in_app_iff. cbn. intros [H|[H|[]]].
    + exact (Hdis k' (or_intror Hin) H).
    + subst. exact (Hk Hin).
Qed.

Lemma addProperties_createMap ps : NoDup (map fst ps) -> addProperties createMap ps = ps.
Proof. intros H. apply (addProperties_app [] ps H). intros k _ []. Qed.

(** A replacement endpoint made by [modify] is a fresh reference (the start
    created before the end) that carries the properties of the endpoint it
    replaces. *)
Theorem modify_replaced_endpoints mt i label' st en op localSeq useNew w i' w' :
  (forall ps, lref_properties (start i) = Some ps -> NoDup (map fst ps)) ->
  (forall ps, lref_properties (end' i) = Some ps -> NoDup (map fst ps)) ->
  modify mt i label' st en op localSeq useNew w = Ok i' w' ->
  (st <> None ->
   lref_uid (start i') = next_lref w /\
   lref_properties (start i') = lref_properties (start i)) /\
  (en <> None ->
   lref_uid (end' i') = match st with Some _ => S (next_lref w) | None => next_lref w end /\
   lref_properties (end' i') = lref_properties (end' i)).
Proof.
  intros Hs He H. unfold modify in H.
  destruct st as [[ps|ps ss]|], en as [[pe|pe se]|];
    cbn [endpointPosAndSide placePosAndSide] in H; decompose_ok;
    repeat match goal with
    | E : createPositionReference _ _ _ _ _ _ _ _ _ _ _ = Ok _ _ |- _ =>
        apply createPositionReference_fresh in E as (?U & ?P & ?Hw); subst
    end;
    cbn [copyPropertiesAndManager newSequenceInterval start end' next_lref] in *;
    (split; intros Hn; [try congruence | try congruence]);
    repeat match goal with
    | |- context [match lref_properties ?r with _ => _ end] =>
        let q := fresh "q" in let Eq := fresh "Eq" in
        destruct (lref_properties r) as [q|] eqn:Eq
    end;
    cbn [lref_addProperties lref_uid lref_properties];
    split; try congruence;
    repeat match goal with
    | P : lref_properties ?a = None |- context [lref_properties ?a] => rewrite P
    end;
    try (rewrite addProperties_createMap; [reflexivity | auto]).
Qed.

Lemma modify_replaced_endpoints_witness :
  exists i' w',
    modify mt0 ivA "x" (Some (SPPos (PNum 1))) (Some (SPPos (PNum 7))) None None false w2
      = Ok i' w' /\
    lref_uid (end' i') = 3%nat /\ lref_properties (end' i') = lref_properties (end' ivA).
Proof.
  eexists _, _. split; [cbv; reflexivity |].
  refine (proj2 (modify_replaced_endpoints mt0 ivA "x" (Some (SPPos (PNum 1)))
    (Some (SPPos (PNum 7))) None None false w2 _ _ _ _ eq_refl) _).
  - intros ps Hp. injection Hp as <-. constructor; [intros [] | constructor].
  - intros ps Hp. injection Hp as <-. constructor; [intros [] | constructor].
  - discriminate.
Defined.

Lemma filter_prop_set (g : string -> bool) k v ps :
  g k = false ->
  filter (fun kv => g (fst kv)) (prop_set k v ps) = filter (fun kv => g (fst kv)) ps.
Proof.
  intros Hg. induction ps as [|[k' v'] ps IH]; cbn.
  - rewrite Hg. reflexivity.
  - destruct (String.eqb_spec k k') as [<-|Hne]; cbn.
    + rewrite Hg. reflexivity.
    + destruct (g k'); [f_equal|]; exact IH.
Qed.

Lemma prop_lookup_filter (g : string -> bool) k ps :
  prop_lookup k (filter (fun kv => g (fst kv)) ps) = if g k then prop_lookup k ps else None.
Proof.
  induction ps as [|[k' v'] ps IH]; cbn; [destruct (g k); reflexivity |].
  destruct (g k') eqn:Eg; cbn.
  - destruct (String.eqb_spec k k') as [->|Hne]; [rewrite Eg; reflexivity | exact IH].
  - destruct (String.eqb_spec k k') as [->|Hne]; [rewrite IH, Eg; reflexivity | exact IH].
Qed.

Lemma filter_keys_reserved (g : string -> bool) (ps : PropertySet) k :
  In k (map fst (filter (fun kv => g (fst kv)) ps)) -> g k = true.
Proof.
  induction ps as [|[k' v'] ps IH]; cbn; [tauto |].
  destruct (g k') eqn:Eg; cbn; [intros [->|H]; auto | auto].
Qed.

Lemma filter_all_kept (g : string -> bool) (ps : PropertySet) :
  (forall k, In k (map fst ps) -> g k = true) -> filter (fun kv => g (fst kv)) ps = ps.
Proof.
  induction ps as [|[k' v'] ps IH]; intros H; cbn; [reflexivity |].
  rewrite (H k' (or_introl eq_refl)). f_equal. apply IH. intros k Hk. apply H. right. exact Hk.
Qed.

(** The user keys: every key but the two reserved ones. *)
Lemma filter_user_prop_set k v ps :
  k = reservedIntervalIdKey \/ k = reservedRangeLabelsKey ->
  filter (fun kv => negb (String.eqb (fst kv) reservedIntervalIdKey)
                    && negb (String.eqb (fst kv) reservedRangeLabelsKey)) (prop_set k v ps) =
  filter (fun kv => negb (String.eqb (fst kv) reservedIntervalIdKey)
                    && negb (String.eqb (fst kv) reservedRangeLabelsKey)) ps.
Proof.
  intros Hk.
  apply (filter_prop_set (fun s => negb (String.eqb s reservedIntervalIdKey)
                                   && negb (String.eqb s reservedRangeLabelsKey))).
  destruct Hk as [-> | ->]; reflexivity.
Qed.

Lemma getSerializedProperties_serializeDelta_eq mt i props includeEndpoints :
  getSerializedProperties (serializeDelta mt i props includeEndpoints) =
  {| sp_id := JStr (id i); sp_labels := JArr [JStr (label i)];
     sp_properties :=
       filter (fun kv => negb (String.eqb (fst kv) reservedIntervalIdKey)
                         && negb (String.eqb (fst kv) reservedRangeLabelsKey))
         (spread props) |}.
Proof.
  assert (Hrl : reservedIntervalIdKey <> reservedRangeLabelsKey) by discriminate.
  unfold getSerializedProperties, serializeDelta. cbn [ser_properties].
  rewrite prop_lookup_set_neq by exact Hrl.
  rewrite !prop_lookup_set_eq.
  rewrite !filter_user_prop_set by (first [left; reflexivity | right; reflexivity]).
  reflexivity.
Qed.

Lemma filter_user_all_kept (ps : PropertySet) :
  (forall k, In k (map fst ps) -> k <> reservedIntervalIdKey /\ k <> reservedRangeLabelsKey) ->
  filter (fun kv => negb (String.eqb (fst kv) reservedIntervalIdKey)
                    && negb (String.eqb (fst kv) reservedRangeLabelsKey)) ps = ps.
Proof.
  intros Hk.
  apply (filter_all_kept (fun s => negb (String.eqb s reservedIntervalIdKey)
                                   && negb (String.eqb s reservedRangeLabelsKey))).
  intros k Hin. destruct (Hk k Hin) as [H1 H2].
  apply String.eqb_neq in H1, H2. rewrite H1, H2. reflexivity.
Qed.

(** Deserializing the properties of [serializeDelta] gives back the
    interval's id and [[label]], and the given properties without the
    reserved keys; for [serialize], whose properties are the interval's own,
    the interval's properties come back unchanged when they hold no
    reserved key. *)
Theorem getSerializedProperties_serializeDelta mt i props includeEndpoints :
  getSerializedProperties (serializeDelta mt i props includeEndpoints) =
  {| sp_id := JStr (id i); sp_labels := JArr [JStr (label i)];
     sp_properties :=
       filter (fun kv => negb (String.eqb (fst kv) reservedIntervalIdKey)
                         && negb (String.eqb (fst kv) reservedRangeLabelsKey))
         (spread props) |} /\
  ((forall k, In k (map fst (properties i)) ->
    k <> reservedIntervalIdKey /\ k <> reservedRangeLabelsKey) ->
   getSerializedProperties (serialize mt i) =
   {| sp_id := JStr (id i); sp_labels := JArr [JStr (label i)];
      sp_properties := properties i |}).
Proof.
  split; [apply getSerializedProperties_serializeDelta_eq |].
  intros Hk. unfold serialize. rewrite getSerializedProperties_serializeDelta_eq.
  cbn [spread]. rewrite filter_user_all_kept by exact Hk. reflexivity.
Qed.

Lemma getSerializedProperties_serializeDelta_witness :
  getSerializedProperties (serialize mt0 ivS) =
  {| sp_id := JStr "abc"; sp_labels := JArr [JStr "hl"];
     sp_properties := [("color"%string, JStr "red")] |}.
Proof.
  apply (proj2 (getSerializedProperties_serializeDelta mt0 ivS None true)).
  intros k Hk. cbv in Hk. destruct Hk as [<-|[]].
  unfold reservedIntervalIdKey, reservedRangeLabelsKey. split; discriminate.
Defined.

(** Round trip: an interval created with some properties serializes to
    properties from which [getSerializedProperties] recovers the given id
    and label and the given properties without the reserved keys. *)
Theorem createSequenceInterval_serialize_roundtrip mt label' id' st en ty op fs useNew p rb
  w iv w' :
  NoDup (map fst p) ->
  createSequenceInterval mt label' id' st en ty op fs useNew (Some p) rb w = Ok iv w' ->
  getSerializedProperties (serialize mt iv) =
  {| sp_id := JStr id'; sp_labels := JArr [JStr label'];
     sp_properties :=
       filter (fun kv => negb (String.eqb (fst kv) reservedIntervalIdKey)
                         && negb (String.eqb (fst kv) reservedRangeLabelsKey)) p |}.
Proof.
  intros Hnd H.
  destruct (createSequenceInterval_shape _ _ _ _ _ _ _ _ _ _ _ _ _ _ H)
    as (sp & ss & ep & es & sr & er & w1 & _ & _ & _ & _ & ->).
  unfold serialize. rewrite getSerializedProperties_serializeDelta_eq.
  cbn [newSequenceInterval id label properties option_map spread].
  unfold clearReservedKeys.
  rewrite addProperties_createMap by (apply prop_set_nodup, prop_set_nodup, Hnd).
  rewrite !filter_user_prop_set by (first [left; reflexivity | right; reflexivity]).
  reflexivity.
Qed.

Lemma createSequenceInterval_serialize_roundtrip_witness :
  exists iv w',
    createSequenceInterval mt0 "hl" "abc" (Some (SPInterior (PNum 2) After))
      (Some (SPInterior (PNum 9) Before)) SlideOnRemoveType None (Some true) false
      (Some [("color"%string, JStr "red"); (reservedIntervalIdKey, JStr "other")]) None
      w0 = Ok iv w' /\
    getSerializedProperties (serialize mt0 iv) =
    {| sp_id := JStr "abc"; sp_labels := JArr [JStr "hl"];
       sp_properties := [("color"%string, JStr "red")] |}.
Proof.
  eexists _, _. split; [cbv; reflexivity |].
  refine (eq_trans (createSequenceInterval_serialize_roundtrip mt0 "hl" "abc"
    (Some (SPInterior (PNum 2) After)) (Some (SPInterior (PNum 9) Before))
    SlideOnRemoveType None (Some true) false
    [("color"%string, JStr "red"); (reservedIntervalIdKey, JStr "other")] None w0 _ _
    _ eq_refl) _).
  - constructor; [| constructor; [intros [] | constructor]].
    intros [H|[]]. discriminate H.
  - reflexivity.
Defined.

(** [getSerializedProperties] never returns a reserved key among the
    properties and keeps every other key's value; the id is the
    [intervalId] property when it is neither undefined nor null, and the
    legacy id ["legacy<start>-<end>"] otherwise. *)
Theorem getSerializedProperties_spec s :
  (forall k, In k (map fst (sp_properties (getSerializedProperties s))) ->
   k <> reservedIntervalIdKey /\ k <> reservedRangeLabelsKey) /\
  (forall k, k <> reservedIntervalIdKey -> k <> reservedRangeLabelsKey ->
   prop_lookup k (sp_properties (getSerializedProperties s)) =
   prop_lookup k (spread (ser_properties s))) /\
  (forall v, prop_lookup reservedIntervalIdKey (spread (ser_properties s)) = Some v ->
   v <> JUndefined -> v <> JNull -> sp_id (getSerializedProperties s) = v) /\
  (prop_lookup reservedIntervalIdKey (spread (ser_properties s)) = None \/
   prop_lookup reservedIntervalIdKey (spread (ser_properties s)) = Some JUndefined \/
   prop_lookup reservedIntervalIdKey (spread (ser_properties s)) = Some JNull ->
   sp_id (getSerializedProperties s) =
   JStr (legacyIdPrefix ++ template_of_pos (ser_start s) ++ "-" ++ template_of_pos (ser_end s))).
Proof.
  set (g := fun s => negb (String.eqb s reservedIntervalIdKey)
                     && negb (String.eqb s reservedRangeLabelsKey)).
  assert (Hps : match ser_properties s with Some p => p | None => [] end =
                spread (ser_properties s)) by (destruct (ser_properties s); reflexivity).
  unfold getSerializedProperties. rewrite Hps. cbn [sp_properties sp_id].
  split; [| split; [| split]].
  - intros k Hin. apply (filter_keys_reserved g) in Hin. unfold g in Hin.
    apply andb_prop in Hin as [H1 H2]. apply negb_true_iff, String.eqb_neq in H1, H2.
    auto.
  - intros k H1 H2. rewrite (prop_lookup_filter g). unfold g.
    apply String.eqb_neq in H1, H2. rewrite H1, H2. reflexivity.
  - intros v -> Hu Hn. unfold nullish. destruct v; congruence.
  - intros [-> | [-> | ->]]; reflexivity.
Qed.

Lemma getSerializedProperties_spec_witness :
  sp_id (getSerializedProperties
    {| ser_start := Some (PNum 3); ser_end := Some (PNum 7);
       ser_properties := Some [(reservedIntervalIdKey, JStr "q")];
       ser_intervalType := Simple; ser_sequenceNumber := 0; ser_stickiness := END;
       ser_startSide := None; ser_endSide := None |}) = JStr "q".
Proof.
  apply (proj1 (proj2 (proj2 (getSerializedProperties_spec
    {| ser_start := Some (PNum 3); ser_end := Some (PNum 7);
       ser_properties := Some [(reservedIntervalIdKey, JStr "q")];
       ser_intervalType := Simple; ser_sequenceNumber := 0; ser_stickiness := END;
       ser_startSide := None; ser_endSide := None |}))) (JStr "q"));
    [reflexivity | discriminate | discriminate].
Defined.

(** [clone] gives an interval equal to the original one when the property
    keys are distinct. *)
Theorem clone_eq i : NoDup (map fst (properties i)) -> clone i = i.
Proof.
  intros H. unfold clone, newSequenceInterval.
  rewrite addProperties_createMap by exact H. destruct i; reflexivity.
Qed.

Lemma clone_eq_witness : clone ivS = ivS.
Proof.
  apply clone_eq. cbv. constructor; [intros [] | constructor].
Defined.

Lemma truthy_string_false s : truthy_string s = false <-> s = EmptyString.
Proof. destruct s; cbn; split; congruence. Qed.

(** [compare] returns 0 exactly when [compareStart] and [compareEnd] do and
    the ids are equal or one of them is empty. *)
Theorem compare_zero_iff mt a b :
  compare mt a b = 0 <->
  compareStart mt a b = 0 /\ compareEnd mt a b = 0 /\
  (id a = EmptyString \/ id b = EmptyString \/ id a = id b).
Proof.
  unfold compare, getIntervalId, js_string_gt, js_string_lt.
  destruct (Z.eqb_spec (compareStart mt a b) 0) as [Hs|Hs];
    [| split; [intros H; congruence | intros (H & _); congruence]].
  destruct (Z.eqb_spec (compareEnd mt a b) 0) as [He|He];
    [| split; [intros H; congruence | intros (_ & H & _); congruence]].
  destruct (truthy_string (id a)) eqn:Ea;
    [| apply truthy_string_false in Ea; split; [intros _; auto | reflexivity]].
  destruct (truthy_string (id b)) eqn:Eb;
    [| apply truthy_string_false in Eb; split; [intros _; auto | reflexivity]].
  assert (Na : id a <> EmptyString) by (intros E; rewrite E in Ea; discriminate).
  assert (Nb : id b <> EmptyString) by (intros E; rewrite E in Eb; discriminate).
  destruct (js_string_compare (id a) (id b)) eqn:Ec.
  - apply js_string_compare_eq in Ec. split; [auto | reflexivity].
  - split; [discriminate |]. intros (_ & _ & [H|[H|H]]); try contradiction.
    rewrite H, js_string_compare_refl in Ec. discriminate.
  - split; [discriminate |]. intros (_ & _ & [H|[H|H]]); try contradiction.
    rewrite H, js_string_compare_refl in Ec. discriminate.
Qed.

Lemma compare_zero_iff_witness : compareEnd mt0 ivA ivA = 0.
Proof.
  exact (proj1 (proj2 (proj1 (compare_zero_iff mt0 ivA ivA) eq_refl))).
Defined.

(** For an antisymmetric reference comparison, [overlaps] is symmetric, and
    an interval overlaps itself exactly when its start is not after its
    end. *)
Theorem overlaps_symmetric mt
  (Hanti : forall x y, compareReferencePositions mt x y = - compareReferencePositions mt y x) :
  (forall a b, overlaps mt a b = overlaps mt b a) /\
  (forall a, overlaps mt a a = (compareReferencePositions mt (start a) (end' a) <=? 0)).
Proof.
  split.
  - intros a b. unfold overlaps.
    rewrite (Hanti (start b) (end' a)), (Hanti (end' b) (start a)).
    destruct (Z.leb_spec (compareReferencePositions mt (start a) (end' b)) 0),
      (Z.geb_spec (compareReferencePositions mt (end' a) (start b)) 0),
      (Z.leb_spec (- compareReferencePositions mt (end' a) (start b)) 0),
      (Z.geb_spec (- compareReferencePositions mt (start a) (end' b)) 0);
      cbn; lia.
  - intros a. unfold overlaps. rewrite (Hanti (end' a) (start a)).
    destruct (Z.leb_spec (compareReferencePositions mt (start a) (end' a)) 0),
      (Z.geb_spec (- compareReferencePositions mt (start a) (end' a)) 0); cbn; lia.
Qed.

Lemma overlaps_symmetric_witness :
  overlaps mt0 ivT1 ivT2 = overlaps mt0 ivT2 ivT1 /\ overlaps mt0 ivA ivA = true.
Proof.
  destruct (overlaps_symmetric mt0 mt0_cmp_antisym) as [H1 H2].
  split; [apply H1 | rewrite H2; reflexivity].
Defined.

Lemma choose_self {A} (f : A -> A -> A) :
  (forall x y, f x y = x \/ f x y = y) -> forall x, f x x = x.
Proof. intros H x. destruct (H x x); assumption. Qed.

(** For reference min/max functions that return one of their arguments,
    the union of an interval with itself has the same endpoints, sides,
    label and type, and the next [uuid()] as its id. *)
Theorem union_self mt a w u w'
  (Hmin : forall x y, minReferencePosition mt x y = x \/ minReferencePosition mt x y = y)
  (Hmax : forall x y, maxReferencePosition mt x y = x \/ maxReferencePosition mt x y = y) :
  union mt a a w = Ok u w' ->
  start u = start a /\ end' u = end' a /\ startSide u = startSide a /\
  endSide u = endSide a /\ label u = label a /\ intervalType u = intervalType a /\
  getIntervalId u = uuid mt (next_uuid w).
Proof.
  unfold union, bind, gen_uuid, ret. intros H. inversion H; subst; clear H.
  cbn. rewrite (choose_self _ (Hmin) (start a)), (choose_self _ (Hmax) (end' a)).
  unfold lref_same. rewrite !Nat.eqb_refl.
  destruct (startSide a), (endSide a); repeat split.
Qed.

Lemma union_self_witness :
  exists u w', union mt0 ivS ivS w0 = Ok u w' /\
    startSide u = After /\ getIntervalId u = "uuid-0"%string.
Proof.
  eexists _, _. split; [cbv; reflexivity |].
  destruct (union_self mt0 ivS w0 _ _ mt0_min_choice mt0_max_choice eq_refl)
    as (_ & _ & Hs & _ & _ & _ & Hid).
  split; [exact Hs | exact Hid].
Defined.

(** When two intervals share their start reference, the union takes the
    smaller side, and [compareStart] ranks the union's start no earlier than
    either start; with sides [After] and [Before] it ranks it strictly after
    the first one although the union covers it. The dual holds for a shared
    end reference. *)
Theorem union_shared_endpoint_compare mt a b w u w'
  (Hmin : forall x y, minReferencePosition mt x y = x \/ minReferencePosition mt x y = y)
  (Hmax : forall x y, maxReferencePosition mt x y = x \/ maxReferencePosition mt x y = y)
  (Hrefl : forall x, compareReferencePositions mt x x = 0) :
  union mt a b w = Ok u w' ->
  (start a = start b ->
   startSide u = minSide (startSide a) (startSide b) /\
   compareStart mt u a >= 0 /\ compareStart mt u b >= 0 /\
   (startSide a = After -> startSide b = Before -> compareStart mt u a = 1)) /\
  (end' a = end' b ->
   endSide u = maxSide (endSide a) (endSide b) /\
   compareEnd mt u a >= 0 /\ compareEnd mt u b >= 0 /\
   (endSide a = Before -> endSide b = After -> compareEnd mt u a = 1)).
Proof.
  unfold union, bind, gen_uuid, ret. intros H. inversion H; subst; clear H.
  unfold compareStart, compareEnd. cbn.
  split; intros Hab.
  - rewrite <- Hab, (choose_self _ Hmin), Hrefl. unfold lref_same. rewrite Nat.eqb_refl.
    cbn. destruct (startSide a), (startSide b); cbn; repeat split; try lia; discriminate.
  - rewrite <- Hab, (choose_self _ Hmax), Hrefl. unfold lref_same. rewrite Nat.eqb_refl.
    cbn. destruct (endSide a), (endSide b); cbn; repeat split; try lia; discriminate.
Qed.

Lemma union_shared_endpoint_compare_witness :
  exists u w', union mt0 ivU2 ivU1 w0 = Ok u w' /\ compareStart mt0 u ivU2 = 1.
Proof.
  eexists _, _. split; [cbv; reflexivity |].
  exact (proj2 (proj2 (proj2 (proj1 (union_shared_endpoint_compare mt0 ivU2 ivU1 w0 _ _
    mt0_min_choice mt0_max_choice mt0_cmp_refl eq_refl) eq_refl))) eq_refl eq_refl).
Defined.

(** [compareSides] is 0 exactly on equal sides, is antisymmetric, and
    orders [After] before [Before]; [minSide] and [maxSide] are commutative,
    [minSide] is [Before] when either side is, [maxSide] is [After] when
    either side is, and [compareSides] ranks the minimum no earlier and the
    maximum no later than its argument. *)
Theorem side_helpers :
  (forall s t, compareSides s t = 0 <-> s = t) /\
  (forall s t, compareSides s t = - compareSides t s) /\
  compareSides Before After = 1 /\
  (forall s t, minSide s t = minSide t s /\ maxSide s t = maxSide t s) /\
  (forall s t, minSide s t = Before <-> s = Before \/ t = Before) /\
  (forall s t, maxSide s t = After <-> s = After \/ t = After) /\
  (forall s t, compareSides (minSide s t) s >= 0 /\ compareSides (maxSide s t) s <= 0).
Proof.
  repeat split; intros; repeat match goal with s : Side |- _ => destruct s end;
    cbn in *; try lia; try tauto; try discriminate; try congruence;
    try (destruct H; discriminate).
Qed.

Section ListenerProofs.

Context {F : Type}.

Lemma addPositionChangeListeners_iv (i : SequenceInterval) (f g : F) st :
  iv_callbacks (addPositionChangeListeners i f g st) =
  match iv_callbacks st with Some c => Some c | None => Some (f, g) end.
Proof.
  unfold addPositionChangeListeners.
  destruct (iv_callbacks st) as [c|] eqn:E; [exact E |].
  unfold ensureCallbacks, setIvCallbacks.
  repeat match goal with
  | |- context [match ?x with Some _ => _ | None => _ end] =>
      lazymatch x with iv_callbacks _ => fail | _ => destruct x end
  end; reflexivity.
Qed.

Lemma addPositionChangeListeners_frame (i : SequenceInterval) (f g : F) st k :
  k <> lref_uid (start i) -> k <> lref_uid (end' i) ->
  ref_callbacks (addPositionChangeListeners i f g st) k = ref_callbacks st k.
Proof.
  intros Hs He. unfold addPositionChangeListeners.
  destruct (iv_callbacks st); [reflexivity |].
  unfold ensureCallbacks, setIvCallbacks, upd.
  apply Nat.eqb_neq in Hs, He.
  repeat match goal with
  | |- context [match ?x with Some _ => _ | None => _ end] => destruct x
  end; cbn; rewrite ?Hs, ?He; reflexivity.
Qed.

(** Adding position change listeners a second time does nothing: the first
    listeners stay. *)
Theorem addPositionChangeListeners_first_wins (i : SequenceInterval) (f g f' g' : F) st :
  addPositionChangeListeners i f' g' (addPositionChangeListeners i f g st) =
  addPositionChangeListeners i f g st.
Proof.
  unfold addPositionChangeListeners at 1.
  rewrite addPositionChangeListeners_iv.
  destruct (iv_callbacks st); reflexivity.
Qed.

Lemma ensureCallbacks_spec (r : nat) (st : ListenerState F) :
  ref_callbacks (snd (ensureCallbacks r st)) r = Some (fst (ensureCallbacks r st)) /\
  (forall k, k <> r -> ref_callbacks (snd (ensureCallbacks r st)) k = ref_callbacks st k) /\
  (forall a, ref_callbacks st r = Some a -> fst (ensureCallbacks r st) = a) /\
  iv_callbacks (snd (ensureCallbacks r st)) = iv_callbacks st.
Proof.
  unfold ensureCallbacks, upd.
  destruct (ref_callbacks st r) as [a|] eqn:E; cbn.
  - repeat split; auto. intros a' H; congruence.
  - rewrite Nat.eqb_refl. repeat split; try discriminate.
    intros k Hk. apply Nat.eqb_neq in Hk. rewrite Hk. reflexivity.
Qed.

Lemma slide_writes (a b : nat) (f g : F) (st : ListenerState F) x :
  x = a \/ x = b ->
  cb_heap (setAfterSlide a g (setAfterSlide b g (setBeforeSlide a f (setBeforeSlide b f st)))) x =
  mkRefCallbacks (Some f) (Some g).
Proof.
  intros Hx. unfold setAfterSlide, setBeforeSlide, upd; cbn.
  repeat match goal with
  | |- context [Nat.eqb ?x ?y] => destruct (Nat.eqb_spec x y); cbn
  end; subst; try reflexivity; destruct Hx; congruence.
Qed.

Lemma addPositionChangeListeners_unfold (i : SequenceInterval) (f g : F) st :
  iv_callbacks st = None ->
  let st1 := setIvCallbacks (Some (f, g)) st in
  let st2 := snd (ensureCallbacks (lref_uid (start i)) st1) in
  let a := fst (ensureCallbacks (lref_uid (start i)) st1) in
  let b := fst (ensureCallbacks (lref_uid (end' i)) st2) in
  let st3 := snd (ensureCallbacks (lref_uid (end' i)) st2) in
  addPositionChangeListeners i f g st =
  setAfterSlide a g (setAfterSlide b g (setBeforeSlide a f (setBeforeSlide b f st3))).
Proof.
  intros Hn. unfold addPositionChangeListeners. rewrite Hn.
  destruct (ensureCallbacks (lref_uid (start i)) _) as [a st2]; cbn.
  destruct (ensureCallbacks (lref_uid (end' i)) st2) as [b st3].
  reflexivity.
Qed.

(** Adding listeners to an unsubscribed interval records them and puts them
    as [beforeSlide] and [afterSlide] in the callbacks objects of both
    endpoints, reusing an endpoint's existing callbacks object; no other
    reference's callbacks change. *)
Theorem addPositionChangeListeners_installs (i : SequenceInterval) (f g : F) st :
  iv_callbacks st = None ->
  iv_callbacks (addPositionChangeListeners i f g st) = Some (f, g) /\
  (exists a, ref_callbacks (addPositionChangeListeners i f g st) (lref_uid (start i)) = Some a /\
   cb_heap (addPositionChangeListeners i f g st) a = mkRefCallbacks (Some f) (Some g)) /\
  (exists a, ref_callbacks (addPositionChangeListeners i f g st) (lref_uid (end' i)) = Some a /\
   cb_heap (addPositionChangeListeners i f g st) a = mkRefCallbacks (Some f) (Some g)) /\
  (forall a, ref_callbacks st (lref_uid (start i)) = Some a ->
   ref_callbacks (addPositionChangeListeners i f g st) (lref_uid (start i)) = Some a) /\
  (forall a, ref_callbacks st (lref_uid (end' i)) = Some a ->
   ref_callbacks (addPositionChangeListeners i f g st) (lref_uid (end' i)) = Some a) /\
  (forall k, k <> lref_uid (start i) -> k <> lref_uid (end' i) ->
   ref_callbacks (addPositionChangeListeners i f g st) k = ref_callbacks st k).
Proof.
  intros Hn.
  split; [rewrite addPositionChangeListeners_iv, Hn; reflexivity |].
  rewrite (addPositionChangeListeners_unfold i f g st Hn).
  set (s := lref_uid (start i)); set (e := lref_uid (end' i)).
  set (st1 := setIvCallbacks (Some (f, g)) st).
  destruct (ensureCallbacks_spec s st1) as [S1 [S2 [S3 _]]].
  set (st2 := snd (ensureCallbacks s st1)) in *.
  set (a := fst (ensureCallbacks s st1)) in *.
  destruct (ensureCallbacks_spec e st2) as [E1 [E2 [E3 _]]].
  set (st3 := snd (ensureCallbacks e st2)) in *.
  set (b := fst (ensureCallbacks e st2)) in *.
  (* the setters leave ref_callbacks alone *)
  change (ref_callbacks (setAfterSlide a g (setAfterSlide b g (setBeforeSlide a f (setBeforeSlide b f st3)))))
    with (ref_callbacks st3).
  assert (Hs3 : ref_callbacks st3 s = Some a).
  { destruct (Nat.eqb_spec s e) as [Hse|Hse].
    - rewrite Hse in *. rewrite E1. f_equal. apply E3. exact S1.
    - rewrite E2 by congruence. exact S1. }
  split; [exists a; split; [exact Hs3 | apply slide_writes; auto] |].
  split; [exists b; split; [exact E1 | apply slide_writes; auto] |].
  split; [intros a0 Ha0; rewrite Hs3; f_equal; apply S3; exact Ha0 |].
  split.
  - intros b0 Hb0. rewrite E1. f_equal. apply E3.
    destruct (Nat.eqb_spec e s) as [Hes|Hes].
    + rewrite Hes in *. rewrite S1. f_equal. apply S3. exact Hb0.
    + rewrite S2 by exact Hes. exact Hb0.
  - intros k Hk1 Hk2. rewrite E2 by exact Hk2. rewrite S2 by exact Hk1. reflexivity.
Qed.

(** Removing listeners from an unsubscribed interval does nothing; removing
    them after adding clears the interval's and both endpoints' callbacks and
    leaves every other reference's callbacks as before. *)
Theorem removePositionChangeListeners_spec (i : SequenceInterval) (f g : F) st :
  (iv_callbacks st = None -> removePositionChangeListeners i st = st) /\
  iv_callbacks (removePositionChangeListeners i (addPositionChangeListeners i f g st)) = None /\
  ref_callbacks (removePositionChangeListeners i (addPositionChangeListeners i f g st)) (lref_uid (start i)) = None /\
  ref_callbacks (removePositionChangeListeners i (addPositionChangeListeners i f g st)) (lref_uid (end' i)) = None /\
  (forall k, k <> lref_uid (start i) -> k <> lref_uid (end' i) ->
   ref_callbacks (removePositionChangeListeners i (addPositionChangeListeners i f g st)) k = ref_callbacks st k).
Proof.
  split; [intros Hn; unfold removePositionChangeListeners; rewrite Hn; reflexivity |].
  unfold removePositionChangeListeners at 1 2 3 4.
  rewrite addPositionChangeListeners_iv.
  assert (Hiv : exists c, match iv_callbacks st with Some c => Some c | None => Some (f, g) end = Some c)
    by (destruct (iv_callbacks st); eauto).
  destruct Hiv as [c Hc]. rewrite Hc.
  unfold clearRefCallbacks, setIvCallbacks, upd; cbn.
  rewrite !Nat.eqb_refl.
  split; [reflexivity |].
  split; [destruct (Nat.eqb _ _); reflexivity |].
  split; [reflexivity |].
  intros k Hk1 Hk2.
  pose proof Hk1 as Hk1'. pose proof Hk2 as Hk2'.
  apply Nat.eqb_neq in Hk1, Hk2. rewrite Hk1, Hk2.
  apply addPositionChangeListeners_frame; assumption.
Qed.

End ListenerProofs.

Lemma addPositionChangeListeners_installs_witness :
  let st := {| iv_callbacks := None;
               ref_callbacks := fun k => if Nat.eqb k 0 then Some 5%nat else None;
               cb_heap := fun _ => mkRefCallbacks None None; cb_next := 6 |} in
  ref_callbacks (addPositionChangeListeners ivA 1%nat 2%nat st) 0 = Some 5%nat /\
  exists a, ref_callbacks (addPositionChangeListeners ivA 1%nat 2%nat st) 1 = Some a /\
    cb_heap (addPositionChangeListeners ivA 1%nat 2%nat st) a =
    mkRefCallbacks (Some 1%nat) (Some 2%nat).
Proof.
  intros st.
  destruct (addPositionChangeListeners_installs ivA 1%nat 2%nat st eq_refl)
    as (_ & _ & He & Hs & _).
  split; [exact (Hs 5%nat eq_refl) | exact He].
Defined.

Lemma removePositionChangeListeners_spec_witness :
  let st := {| iv_callbacks := None; ref_callbacks := fun k => Some k;
               cb_heap := fun _ => mkRefCallbacks None None; cb_next := 0 |} in
  removePositionChangeListeners ivA st = st /\
  ref_callbacks (removePositionChangeListeners ivA
                   (addPositionChangeListeners ivA 1%nat 2%nat st)) 0 = None /\
  ref_callbacks (removePositionChangeListeners ivA
                   (addPositionChangeListeners ivA 1%nat 2%nat st)) 7 = Some 7%nat.
Proof.
  intros st.
  destruct (removePositionChangeListeners_spec ivA 1%nat 2%nat st)
    as (H1 & _ & Hs & _ & Hk).
  split; [exact (H1 eq_refl) |].
  split; [exact Hs |].
  exact (Hk 7%nat ltac:(discriminate) ltac:(discriminate)).
Defined.
